(** * FileZipper: the Huffman coding engine of [filezipper/core.py]

    A shallow embedding of [HuffmanNode], [HuffmanEncoder] and
    [HuffmanDecoder], and the properties of [compress] / [decompress]
    checked against it.

    Conventions.
    - Python [bytes] / [bytearray] are [list Byte.byte]; a byte that the
      source reads as an [int] goes through [Byte.to_N], and
      [bytearray.append] of an [int] through [Byte.of_N].
    - Python [str] values (bit-strings of the characters '0' and '1') are
      [list ascii].
    - A Python [dict] is an association list in insertion order; assigning
      an existing key keeps its position and replaces its value.
    - An exception is a value of [exn]; a fallible function returns
      [result]. *)

From Stdlib Require Import ZArith NArith Lia.
From Stdlib.Strings Require Import Ascii String Byte.
From stdpp Require Import base tactics option list relations.

Local Open Scope Z_scope.
Local Open Scope nat_scope.

(** ** Exceptions and results *)

Inductive exn : Type :=
| ValueError (msg : string)
| KeyError
| IndexError.

Inductive result (A : Type) : Type :=
| Ok (a : A)
| Raise (e : exn).

Arguments Ok {A} a.
Arguments Raise {A} e.

#[global] Instance result_ret : MRet result := @Ok.

#[global] Instance result_bind : MBind result := λ A B f m,
  match m with
  | Ok a => f a
  | Raise e => Raise e
  end.

(** ** Strings, bytes and dictionaries *)

Abbreviation str := (list ascii).

Definition c0 : ascii := "0"%char.
Definition c1 : ascii := "1"%char.

#[global] Instance byte_eq_dec : EqDecision byte := Byte.byte_eq_dec.
#[global] Instance ascii_eq_dec : EqDecision ascii := Ascii.ascii_dec.

Section Dict.
Context {K V : Type} `{EqDecision K}.

Definition dict := list (K * V).

(** [d.get(k)] *)
Fixpoint dict_get (d : dict) (k : K) : option V :=
  match d with
  | [] => None
  | (k', v) :: d' => if decide (k = k') then Some v else dict_get d' k
  end.

(** [k in d] *)
Definition dict_mem (d : dict) (k : K) : bool :=
  match dict_get d k with Some _ => true | None => false end.

(** [d[k]], raising [KeyError] *)
Definition dict_getitem (d : dict) (k : K) : result V :=
  match dict_get d k with Some v => Ok v | None => Raise KeyError end.

(** [d[k] = v] *)
Fixpoint dict_set (d : dict) (k : K) (v : V) : dict :=
  match d with
  | [] => [(k, v)]
  | (k', v') :: d' =>
      if decide (k = k') then (k', v) :: d' else (k', v') :: dict_set d' k v
  end.

Definition dict_keys (d : dict) : list K := d.*1.
End Dict.

Arguments dict : clear implicits.

(** ** Sequence indexing of a Python list *)

Definition getitem {A} (l : list A) (i : nat) : result A :=
  match l !! i with
  | Some x => Ok x
  | None => Raise IndexError
  end.

Definition setitem {A} (l : list A) (i : nat) (x : A) : result (list A) :=
  if decide (i < length l) then Ok (<[i:=x]> l) else Raise IndexError.

(** ** HuffmanNode *)

#[local] Unset Elimination Schemes.

Inductive HuffmanNode : Type :=
  mkNode {
    char : option byte;
    freq : Z;
    left : option HuffmanNode;
    right : option HuffmanNode
  }.

#[local] Set Elimination Schemes.

(** [HuffmanNode(char=char, freq=freq)]: the children default to [None]. *)
Definition leaf_node (char : byte) (freq : Z) : HuffmanNode :=
  mkNode (Some char) freq None None.

(** [HuffmanNode.__lt__] *)
Definition node_lt (self other : HuffmanNode) : bool :=
  (freq self <? freq other)%Z.

(** ** heapq

    The priority queue of the Python standard library, as [Lib/heapq.py]
    writes it, with [<] the [__lt__] of [HuffmanNode].  A heap is a Python
    list; an index out of range raises [IndexError].  The general
    properties below use of these functions only that they return and
    keep the items of the heap; the order in which nodes of equal
    frequency leave the heap matters to the evaluated examples alone. *)

Module heapq.

(** The loop of [_siftdown]; [pos] strictly decreases, so [fuel = pos]
    runs it to its exit. *)
Fixpoint _siftdown_loop (fuel : nat) (heap : list HuffmanNode)
    (startpos pos : nat) (newitem : HuffmanNode)
    : result (list HuffmanNode) :=
  match fuel with
  | S fuel' =>
      if decide (startpos < pos) then
        let parentpos := (pos - 1) `div` 2 in
        parent ← getitem heap parentpos;
        if node_lt newitem parent then
          heap ← setitem heap pos parent;
          _siftdown_loop fuel' heap startpos parentpos newitem
        else setitem heap pos newitem
      else setitem heap pos newitem
  | O => setitem heap pos newitem
  end.

Definition _siftdown (heap : list HuffmanNode) (startpos pos : nat)
    : result (list HuffmanNode) :=
  newitem ← getitem heap pos;
  _siftdown_loop pos heap startpos pos newitem.

(** The loop of [_siftup]; returns the heap and the final [pos].
    [childpos] strictly increases up to [endpos]. *)
Fixpoint _siftup_loop (fuel : nat) (heap : list HuffmanNode)
    (endpos pos childpos : nat) : result (list HuffmanNode * nat) :=
  match fuel with
  | S fuel' =>
      if decide (childpos < endpos) then
        let rightpos := childpos + 1 in
        childpos ←
          (if decide (rightpos < endpos) then
             c ← getitem heap childpos;
             r ← getitem heap rightpos;
             Ok (if negb (node_lt c r) then rightpos else childpos)
           else Ok childpos);
        c ← getitem heap childpos;
        heap ← setitem heap pos c;
        _siftup_loop fuel' heap endpos childpos (2 * childpos + 1)
      else Ok (heap, pos)
  | O => Ok (heap, pos)
  end.

Definition _siftup (heap : list HuffmanNode) (pos : nat)
    : result (list HuffmanNode) :=
  let endpos := length heap in
  let startpos := pos in
  newitem ← getitem heap pos;
  let childpos := 2 * pos + 1 in
  '(heap, pos) ← _siftup_loop endpos heap endpos pos childpos;
  heap ← setitem heap pos newitem;
  _siftdown heap startpos pos.

Definition heappush (heap : list HuffmanNode) (item : HuffmanNode)
    : result (list HuffmanNode) :=
  let heap := heap ++ [item] in
  _siftdown heap 0 (length heap - 1).

(** Returns the popped item and the heap left. *)
Definition heappop (heap : list HuffmanNode)
    : result (HuffmanNode * list HuffmanNode) :=
  match last heap with
  | None => Raise IndexError
  | Some lastelt =>
      let heap := removelast heap in
      match heap with
      | returnitem :: _ =>
          heap ← setitem heap 0 lastelt;
          heap ← _siftup heap 0;
          Ok (returnitem, heap)
      | [] => Ok (lastelt, heap)
      end
  end.

End heapq.

(** ** HuffmanEncoder

    Every method reads and writes a few fields of [self]; each is
    written over those fields.  [_build_min_heap] resets [self.heap] and
    [_build_codes] resets [self.codes] and [self.reverse_mapping] before
    any read, so [compress] does not depend on the encoder's earlier
    state. *)

(** [collections.Counter(data)]: keys in order of first occurrence. *)
Definition Counter (data : list byte) : dict byte Z :=
  foldl (λ m elem, dict_set m elem (default 0 (dict_get m elem) + 1)%Z)
        [] data.

Definition _build_frequency_dict (data : list byte) : dict byte Z :=
  Counter data.

Fixpoint _build_min_heap_loop (items : list (byte * Z))
    (heap : list HuffmanNode) : result (list HuffmanNode) :=
  match items with
  | [] => Ok heap
  | (char, freq) :: items' =>
      let node := leaf_node char freq in
      heap ← heapq.heappush heap node;
      _build_min_heap_loop items' heap
  end.

Definition _build_min_heap (frequency : dict byte Z)
    : result (list HuffmanNode) :=
  _build_min_heap_loop frequency [].

(** The [while len(self.heap) > 1] loop; every iteration shortens the
    heap by one, so [fuel = len(self.heap)] runs it to its exit. *)
Fixpoint _merge_nodes_loop (fuel : nat) (heap : list HuffmanNode)
    : result (list HuffmanNode) :=
  match fuel with
  | S fuel' =>
      if decide (1 < length heap) then
        '(node1, heap) ← heapq.heappop heap;
        '(node2, heap) ← heapq.heappop heap;
        let merged :=
          mkNode None (freq node1 + freq node2)%Z (Some node1) (Some node2) in
        heap ← heapq.heappush heap merged;
        _merge_nodes_loop fuel' heap
      else Ok heap
  | O => Ok heap
  end.

Definition _merge_nodes (heap : list HuffmanNode)
    : result (list HuffmanNode) :=
  _merge_nodes_loop (length heap) heap.

(** The two dictionaries [self.codes] and [self.reverse_mapping]. *)
Record tables : Type := mkTables {
  codes : dict byte str;
  reverse_mapping : dict str byte
}.

(** [_build_codes_helper] on a node that is not [None]. *)
Fixpoint _build_codes_node (node : HuffmanNode) (current_code : str)
    (self : tables) : tables :=
  match char node with
  | Some ch =>
      let current_code :=
        match current_code with [] => [c0] | _ => current_code end in
      mkTables (dict_set (codes self) ch current_code)
               (dict_set (reverse_mapping self) current_code ch)
  | None =>
      let self :=
        match left node with
        | None => self
        | Some l => _build_codes_node l (current_code ++ [c0]) self
        end in
      match right node with
      | None => self
      | Some r => _build_codes_node r (current_code ++ [c1]) self
      end
  end.

Definition _build_codes_helper (node : option HuffmanNode)
    (current_code : str) (self : tables) : tables :=
  match node with
  | None => self
  | Some n => _build_codes_node n current_code self
  end.

Definition _build_codes (heap : list HuffmanNode) : tables :=
  let self := mkTables [] [] in
  match heap with
  | [] => self
  | root :: _ =>
      match char root with
      | Some ch =>
          mkTables (dict_set (codes self) ch [c0])
                   (dict_set (reverse_mapping self) [c0] ch)
      | None => _build_codes_helper (Some root) [] self
      end
  end.

Fixpoint _get_encoded_data (codes : dict byte str) (data : list byte)
    : result str :=
  match data with
  | [] => Ok []
  | byte :: data' =>
      code ← dict_getitem codes byte;
      rest ← _get_encoded_data codes data';
      Ok (code ++ rest)
  end.

(** [len(encoded_data) % 8] is below 8, so the subtraction stays in the
    naturals. *)
Definition _pad_encoded_data (encoded_data : str) : str * nat :=
  let padding := 8 - length encoded_data `mod` 8 in
  let encoded_data :=
    if decide (padding ≠ 8) then encoded_data ++ replicate padding c0
    else encoded_data in
  (encoded_data, padding).

(** [int(s, 2)] on a string of binary digits.  The strings that reach it
    are made of '0' and '1' only; on anything else the model raises. *)
Fixpoint int2_digits (acc : N) (s : str) : result N :=
  match s with
  | [] => Ok acc
  | c :: s' =>
      if decide (c = c0) then int2_digits (2 * acc)%N s'
      else if decide (c = c1) then int2_digits (2 * acc + 1)%N s'
      else Raise (ValueError "invalid literal for int() with base 2")
  end.

Definition int2 (s : str) : result N :=
  match s with
  | [] => Raise (ValueError "invalid literal for int() with base 2")
  | _ => int2_digits 0%N s
  end.

(** [bytearray.append(n)] *)
Definition bytearray_append (b : list byte) (n : N) : result (list byte) :=
  match Byte.of_N n with
  | Some x => Ok (b ++ [x])
  | None => Raise (ValueError "byte must be in range(0, 256)")
  end.

(** The slices [s[i:i+8]] for [i in range(0, len(s), 8)]. *)
Fixpoint chunks8 (s : str) : list str :=
  match s with
  | [] => []
  | a :: b :: c :: d :: e :: f :: g :: h :: s' =>
      [a; b; c; d; e; f; g; h] :: chunks8 s'
  | _ => [s]
  end.

Fixpoint _get_byte_array_loop (chunks : list str) (b : list byte)
    : result (list byte) :=
  match chunks with
  | [] => Ok b
  | byte :: chunks' =>
      n ← int2 byte;
      b ← bytearray_append b n;
      _get_byte_array_loop chunks' b
  end.

Definition _get_byte_array (padded_encoded_data : str)
    : result (list byte) :=
  if decide (length padded_encoded_data `mod` 8 ≠ 0) then
    Raise (ValueError "Encoded data is not properly padded")
  else _get_byte_array_loop (chunks8 padded_encoded_data) [].

Definition compress (data : list byte)
    : result (list byte * dict byte str) :=
  match data with
  | [] => Ok ([], [])
  | _ =>
      let frequency := _build_frequency_dict data in
      heap ← _build_min_heap frequency;
      heap ← _merge_nodes heap;
      let self := _build_codes heap in
      encoded_data ← _get_encoded_data (codes self) data;
      let '(padded_encoded_data, padding) :=
        _pad_encoded_data encoded_data in
      compressed_data ← _get_byte_array padded_encoded_data;
      compressed_data_with_meta ← bytearray_append [] (N.of_nat padding);
      let compressed_data_with_meta :=
        compressed_data_with_meta ++ compressed_data in
      Ok (compressed_data_with_meta, codes self)
  end.

(** ** HuffmanDecoder *)

(** [s[:-padding]] when [padding > 0]. *)
Definition _remove_padding (padded_encoded_data : str) (padding : N) : str :=
  if decide (0 < padding)%N then
    take (length padded_encoded_data - N.to_nat padding) padded_encoded_data
  else padded_encoded_data.

Definition IncompleteCodeError : exn :=
  ValueError "Invalid encoded data: incomplete code at the end".

(** The [for bit in encoded_data] loop, from the state
    [(current_code, decoded_data)] to the state at its end. *)
Fixpoint _decode_loop (reverse_mapping : dict str byte) (encoded_data : str)
    (current_code : str) (decoded_data : list byte) : str * list byte :=
  match encoded_data with
  | [] => (current_code, decoded_data)
  | bit :: encoded_data' =>
      let current_code := current_code ++ [bit] in
      match dict_get reverse_mapping current_code with
      | Some byte =>
          _decode_loop reverse_mapping encoded_data' [] (decoded_data ++ [byte])
      | None =>
          _decode_loop reverse_mapping encoded_data' current_code decoded_data
      end
  end.

Definition _decode_data (reverse_mapping : dict str byte)
    (encoded_data : str) : result (list byte) :=
  let '(current_code, decoded_data) :=
    _decode_loop reverse_mapping encoded_data [] [] in
  match current_code with
  | _ :: _ => Raise IncompleteCodeError
  | [] => Ok decoded_data
  end.

(** [{v: k for k, v in codes.items()}] *)
Definition invert_codes (codes : dict byte str) : dict str byte :=
  foldl (λ m kv, dict_set m kv.2 kv.1) [] codes.

(** [format(n, 'b')] *)
Fixpoint bin_pos (p : positive) (acc : str) : str :=
  match p with
  | xH => c1 :: acc
  | xO p' => bin_pos p' (c0 :: acc)
  | xI p' => bin_pos p' (c1 :: acc)
  end.

Definition format_b (n : N) : str :=
  match n with
  | N0 => [c0]
  | Npos p => bin_pos p []
  end.

(** [f"{byte:08b}"] *)
Definition format_08b (b : byte) : str :=
  let digits := format_b (Byte.to_N b) in
  replicate (8 - length digits) c0 ++ digits.

(** The part of [decompress] after [bit_string] is built. *)
Definition decode_bit_string (reverse_mapping : dict str byte)
    (bit_string : str) : result (list byte) :=
  padding ← int2 (take 8 bit_string);
  let encoded_data := _remove_padding (drop 8 bit_string) padding in
  _decode_data reverse_mapping encoded_data.

Definition to_bit_string (compressed_data : list byte) : str :=
  foldl (λ bit_string byte, bit_string ++ format_08b byte) [] compressed_data.

Definition decompress (compressed_data : list byte) (codes : dict byte str)
    : result (list byte) :=
  match compressed_data with
  | [] => Ok []
  | _ =>
      let reverse_mapping := invert_codes codes in
      let bit_string := to_bit_string compressed_data in
      decode_bit_string reverse_mapping bit_string
  end.

(** ** Notions the properties are stated with *)

(** The code table that tree construction and code assignment give for a
    frequency table: the first steps of [compress]. *)
Definition build_code_table (frequency : dict byte Z)
    : result (dict byte str) :=
  heap ← _build_min_heap frequency;
  heap ← _merge_nodes heap;
  Ok (codes (_build_codes heap)).

(** No symbol's code is a prefix of another symbol's code (so it is no
    proper prefix of it, and the two codes differ). *)
Definition prefix_free (table : dict byte str) : Prop :=
  ∀ b1 b2 s1 s2,
    b1 ≠ b2 → dict_get table b1 = Some s1 → dict_get table b2 = Some s2 →
    ¬ s1 `prefix_of` s2.

(** The sum of the code lengths of the bytes of [data] under [table]. *)
Definition total_code_bits (table : dict byte str) (data : list byte) : nat :=
  sum_list ((λ b, length (default [] (dict_get table b))) <$> data).

(** The bits of a packed body that [decompress] decodes: the body's bits
    without the last [meta] ones. *)
Definition payload_bits (meta : byte) (body : list byte) : str :=
  _remove_padding (to_bit_string body) (Byte.to_N meta).

(** The bit-string without its last [k] bits. *)
Definition truncate_bits (k : nat) (bit_string : str) : str :=
  take (length bit_string - k) bit_string.

Definition bytes_of (s : string) : list byte := list_byte_of_string s.

(** [decompress] on a packed sequence whose body's bit-string has lost
    its last [k] bits. *)
Definition decompress_truncated (k : nat) (compressed_data : list byte)
    (codes : dict byte str) : result (list byte) :=
  match compressed_data with
  | [] => Ok []
  | meta :: body =>
      decode_bit_string (invert_codes codes)
        (format_08b meta ++ truncate_bits k (to_bit_string body))
  end.

(** The bits that [decompress] is left to decode after the truncation:
    the body's bit-string without its last [k] bits and without the
    bits that the metadata byte counts as padding. *)
Definition truncated_payload (k : nat) (meta : byte) (body : list byte)
    : str :=
  _remove_padding (truncate_bits k (to_bit_string body)) (Byte.to_N meta).

(** The truncation by [k] bits is detected on [d]: for the result that
    [compress] returns, the decoder raises the decode-integrity error. *)
Definition truncation_detected (d : list byte) (k : nat) : Prop :=
  ∀ packed table,
    compress d = Ok (packed, table) →
    decompress_truncated k packed table = Raise IncompleteCodeError.

(** [ceil(n / 8)] *)
Definition ceil_div8 (n : nat) : nat := (n + 7) `div` 8.

(** ** Notions the further properties are stated with *)

(** The number of occurrences of [b] in [data]. *)
Definition occurrences (b : byte) (data : list byte) : nat :=
  length (filter (λ x, x = b) data).

(** The code table [{97: "0", 98: "10", 99: "11"}]. *)
Definition abc_table : dict byte str :=
  [("a"%byte, [c0]); ("b"%byte, [c1; c0]); ("c"%byte, [c1; c1])].

(** The tree that [compress] builds for a frequency table: the heap left
    by [_build_min_heap] and [_merge_nodes]. *)
Definition build_tree (frequency : dict byte Z) : result (list HuffmanNode) :=
  heap ← _build_min_heap frequency;
  _merge_nodes heap.

(** The two tables that [_build_codes] fills for a frequency table. *)
Definition build_tables (frequency : dict byte Z) : result tables :=
  heap ← build_tree frequency;
  Ok (_build_codes heap).

(** A leaf has a symbol and no children; any other node has two children
    and the sum of their frequencies. *)
Fixpoint tree_wf (node : HuffmanNode) : Prop :=
  match char node with
  | Some _ => left node = None ∧ right node = None
  | None =>
      match left node, right node with
      | Some l, Some r =>
          freq node = (freq l + freq r)%Z ∧ tree_wf l ∧ tree_wf r
      | _, _ => False
      end
  end.

(** The (symbol, frequency) pairs of the leaves of a node, left to right. *)
Fixpoint leaf_items (node : HuffmanNode) : list (byte * Z) :=
  match char node with
  | Some ch => [(ch, freq node)]
  | None =>
      match left node with
      | None => []
      | Some l => leaf_items l
      end ++
      match right node with
      | None => []
      | Some r => leaf_items r
      end
  end.

Definition sum_Z (l : list Z) : Z := foldr Z.add 0%Z l.

(** [frequency.values()] *)
Definition dict_values_Z (frequency : dict byte Z) : list Z := frequency.*2.

(** The heap invariant of [heapq]: no item is less than its parent, the
    item at index [(i - 1) // 2]. *)
Definition heap_ordered (heap : list HuffmanNode) : Prop :=
  ∀ i c p,
    0 < i → heap !! i = Some c → heap !! ((i - 1) `div` 2) = Some p →
    (freq p ≤ freq c)%Z.

(** One step of Huffman's algorithm on a collection of nodes: two nodes
    of least frequency, [node1] and then [node2], leave it and the node
    that [_merge_nodes] makes of them, with [node1] on the left, joins
    the rest. *)
Definition huffman_step (heap heap' : list HuffmanNode) : Prop :=
  ∃ node1 node2 rest,
    heap ≡ₚ node1 :: node2 :: rest
    ∧ (∀ n, n ∈ node2 :: rest → (freq node1 ≤ freq n)%Z)
    ∧ (∀ n, n ∈ rest → (freq node2 ≤ freq n)%Z)
    ∧ heap' ≡ₚ mkNode None (freq node1 + freq node2)%Z
                 (Some node1) (Some node2) :: rest.

(** A heap of three leaves, in heap order. *)
Definition three_leaves : list HuffmanNode :=
  [leaf_node "c" 1; leaf_node "a" 5; leaf_node "b" 2].

(** ** Definitions for the proofs *)

(** The list of [_siftdown], with [newitem] put at [pos], is in heap
    order but for the item at [pos] and its parent; and the children of
    [pos] are not less than that parent. *)
Definition down_inv (F : list HuffmanNode) (pos : nat) : Prop :=
  (∀ i c p, 0 < i → i ≠ pos →
     F !! i = Some c → F !! ((i - 1) `div` 2) = Some p →
     (freq p ≤ freq c)%Z)
  ∧ (∀ i c g, 0 < i → (i - 1) `div` 2 = pos → 0 < pos →
       F !! i = Some c → F !! ((pos - 1) `div` 2) = Some g →
       (freq g ≤ freq c)%Z).

Ltac monad_step := cbn [mbind result_bind mret result_ret].

(** The list of [_siftup], whose item at [pos] is a spare copy, is in
    heap order but for the items compared with the one at [pos]; and
    the children of [pos] are not less than the parent of [pos]. *)
Definition up_inv (heap : list HuffmanNode) (pos : nat) : Prop :=
  (∀ i c p, 0 < i → i ≠ pos → (i - 1) `div` 2 ≠ pos →
     heap !! i = Some c → heap !! ((i - 1) `div` 2) = Some p →
     (freq p ≤ freq c)%Z)
  ∧ (∀ i c g, 0 < i → (i - 1) `div` 2 = pos → 0 < pos →
       heap !! i = Some c → heap !! ((pos - 1) `div` 2) = Some g →
       (freq g ≤ freq c)%Z).


(** Induction on a node, through its optional children. *)
Fixpoint HuffmanNode_ind (P : HuffmanNode → Prop)
    (IH : ∀ ch f l r, from_option P True l → from_option P True r →
                      P (mkNode ch f l r))
    (n : HuffmanNode) : P n :=
  match n with
  | mkNode ch f l r =>
      IH ch f l r
        (match l with Some x => HuffmanNode_ind P IH x | None => I end)
        (match r with Some x => HuffmanNode_ind P IH x | None => I end)
  end.

(** The (symbol, code) pairs that [_build_codes_helper] assigns under a
    node, in the order it assigns them. *)
Fixpoint code_list (node : HuffmanNode) (current_code : str)
    : list (byte * str) :=
  match char node with
  | Some ch =>
      [(ch, match current_code with [] => [c0] | _ => current_code end)]
  | None =>
      match left node with
      | None => []
      | Some l => code_list l (current_code ++ [c0])
      end ++
      match right node with
      | None => []
      | Some r => code_list r (current_code ++ [c1])
      end
  end.

(** The symbols at the leaves of a node, left to right. *)
Definition leaves (node : HuffmanNode) : list byte := (code_list node []).*1.

Definition is_bit (c : ascii) : Prop := c = c0 ∨ c = c1.

(** What the proofs need of a code table over [symbols]. *)
Record code_table_ok (symbols : list byte) (table : dict byte str) : Prop := {
  table_NoDup : NoDup (dict_keys table);
  table_keys : ∀ b, b ∈ dict_keys table ↔ b ∈ symbols;
  table_bits : ∀ kv, kv ∈ table → kv.2 ≠ [] ∧ Forall is_bit kv.2;
  table_incomparable : ∀ i j kv1 kv2,
    i ≠ j → table !! i = Some kv1 → table !! j = Some kv2 →
    ¬ kv1.2 `prefix_of` kv2.2
}.

(** The 1875 bytes [b"a"*1000 + b"b"*500 + b"c"*250 + b"d"*125]. *)
Definition skewed_input : list byte :=
  replicate 1000 "a"%byte ++ replicate 500 "b"%byte
  ++ replicate 250 "c"%byte ++ replicate 125 "d"%byte.

(** * Properties *)

(** ** The error monad *)

Lemma bind_Ok {A B} (m : result A) (f : A → result B) b :
  m ≫= f = Ok b ↔ ∃ a, m = Ok a ∧ f a = Ok b.
Proof.
  destruct m as [a|e]; simpl; split.
  - intros Hf. by exists a.
  - by intros (a' & [= <-] & Hf).
  - intros [=].
  - by intros (a' & [=] & _).
Qed.

Lemma getitem_Ok {A} (l : list A) i x : l !! i = Some x → getitem l i = Ok x.
Proof. unfold getitem. by intros ->. Qed.

Lemma setitem_Ok {A} (l : list A) i x :
  i < length l → setitem l i x = Ok (<[i:=x]> l).
Proof. unfold setitem. intros Hi. by rewrite decide_True. Qed.

(** ** heapq keeps the items of the heap *)

Lemma perm_insert {A} (l : list A) i a b :
  l !! i = Some a → b :: l ≡ₚ a :: <[i:=b]> l.
Proof.
  revert i. induction l as [|x l IH]; intros [|i] Hi; simplify_eq/=.
  - apply Permutation_swap.
  - etrans; [apply Permutation_swap|].
    etrans; [|apply Permutation_swap].
    by apply Permutation_skip, IH.
Qed.

Module heapq_facts.
Import heapq.

(** The invariant of both sift loops: the heap holds one spare copy
    [hp] of the item at [pos], and [newitem] is out of the list. *)
Lemma hole_move (heap orig : list HuffmanNode) pos pos' newitem hp hp' :
  heap !! pos = Some hp →
  heap !! pos' = Some hp' →
  newitem :: heap ≡ₚ hp :: orig →
  newitem :: <[pos:=hp']> heap ≡ₚ hp' :: orig.
Proof.
  intros Hpos Hpos' Hinv.
  apply (Permutation_cons_inv (a:=hp)).
  etrans; [apply Permutation_swap|].
  etrans; [apply Permutation_skip; symmetry; apply (perm_insert _ _ _ _ Hpos)|].
  etrans; [apply Permutation_swap|].
  etrans; [apply Permutation_skip, Hinv|].
  apply Permutation_swap.
Qed.

Lemma hole_fill (heap orig : list HuffmanNode) pos newitem hp :
  heap !! pos = Some hp →
  newitem :: heap ≡ₚ hp :: orig →
  <[pos:=newitem]> heap ≡ₚ orig.
Proof.
  intros Hpos Hinv. apply (Permutation_cons_inv (a:=hp)).
  by rewrite <-(perm_insert heap pos hp newitem Hpos).
Qed.

Lemma parent_lt pos : 0 < pos → (pos - 1) `div` 2 < pos.
Proof.
  intros Hpos. apply Nat.le_lt_trans with (pos - 1); [|lia].
  apply Nat.Div0.div_le_upper_bound. lia.
Qed.

Lemma _siftdown_loop_perm fuel :
  ∀ heap startpos pos newitem hp orig,
    heap !! pos = Some hp →
    newitem :: heap ≡ₚ hp :: orig →
    ∃ heap', _siftdown_loop fuel heap startpos pos newitem = Ok heap'
             ∧ heap' ≡ₚ orig.
Proof.
  induction fuel as [|fuel IH]; intros heap startpos pos newitem hp orig
    Hpos Hinv; cbn [_siftdown_loop];
    pose proof (lookup_lt_Some _ _ _ Hpos) as Hlt.
  - rewrite setitem_Ok by done. eauto using hole_fill.
  - destruct (decide (startpos < pos)) as [Hs|Hs];
      [|rewrite setitem_Ok by done; eauto using hole_fill].
    pose proof (parent_lt pos ltac:(lia)) as Hpar.
    destruct (lookup_lt_is_Some_2 heap ((pos - 1) `div` 2) ltac:(lia))
      as [parent Hparent].
    rewrite (getitem_Ok _ _ _ Hparent). monad_step.
    destruct (node_lt newitem parent);
      [|rewrite setitem_Ok by done; eauto using hole_fill].
    rewrite setitem_Ok by done. monad_step.
    apply (IH _ _ _ _ parent).
    + rewrite list_lookup_insert_ne by lia. done.
    + eapply hole_move; eauto.
Qed.

(** Fuel [pos] is enough: any larger fuel gives the same heap. *)
Lemma _siftdown_loop_fuel fuel1 :
  ∀ fuel2 heap startpos pos newitem,
    pos ≤ fuel1 → pos ≤ fuel2 →
    _siftdown_loop fuel1 heap startpos pos newitem
    = _siftdown_loop fuel2 heap startpos pos newitem.
Proof.
  induction fuel1 as [|fuel1 IH]; intros [|fuel2] heap startpos pos newitem
    H1 H2; cbn [_siftdown_loop]; try done.
  - rewrite decide_False by lia. done.
  - rewrite decide_False by lia. done.
  - destruct (decide (startpos < pos)); [|done].
    destruct (getitem heap _) as [parent|]; monad_step; [|done].
    destruct (node_lt newitem parent); [|done].
    destruct (setitem heap pos parent) as [heap'|]; monad_step; [|done].
    pose proof (parent_lt pos ltac:(lia)). apply IH; lia.
Qed.

Lemma _siftdown_perm heap startpos pos :
  pos < length heap →
  ∃ heap', _siftdown heap startpos pos = Ok heap' ∧ heap' ≡ₚ heap.
Proof.
  intros Hpos. destruct (lookup_lt_is_Some_2 heap pos Hpos) as [x Hx].
  unfold _siftdown. rewrite (getitem_Ok _ _ _ Hx). monad_step.
  by apply (_siftdown_loop_perm _ _ _ _ _ x).
Qed.

Lemma _siftup_loop_perm fuel :
  ∀ heap pos childpos newitem hp orig,
    heap !! pos = Some hp →
    newitem :: heap ≡ₚ hp :: orig →
    ∃ heap' pos' hp',
      _siftup_loop fuel heap (length heap) pos childpos = Ok (heap', pos')
      ∧ heap' !! pos' = Some hp'
      ∧ newitem :: heap' ≡ₚ hp' :: orig.
Proof.
  induction fuel as [|fuel IH]; intros heap pos childpos newitem hp orig
    Hpos Hinv; cbn [_siftup_loop]; [by eauto 6|].
  destruct (decide (childpos < length heap)) as [Hc|Hc]; [|by eauto 6].
  assert (∃ childpos',
    (if decide (childpos + 1 < length heap) then
       c ← getitem heap childpos;
       r ← getitem heap (childpos + 1);
       Ok (if negb (node_lt c r) then childpos + 1 else childpos)
     else Ok childpos) = Ok childpos' ∧ childpos' < length heap)
    as (childpos' & -> & Hc').
  { destruct (decide (childpos + 1 < length heap)) as [Hr|Hr]; [|by eauto].
    destruct (lookup_lt_is_Some_2 heap childpos Hc) as [c Hcl].
    destruct (lookup_lt_is_Some_2 heap (childpos + 1) Hr) as [r Hrl].
    rewrite (getitem_Ok _ _ _ Hcl), (getitem_Ok _ _ _ Hrl). monad_step.
    destruct (negb (node_lt c r)); eauto. }
  monad_step.
  destruct (lookup_lt_is_Some_2 heap childpos' Hc') as [c Hcl].
  pose proof (lookup_lt_Some _ _ _ Hpos) as Hlt.
  rewrite (getitem_Ok _ _ _ Hcl). monad_step.
  rewrite setitem_Ok by done. monad_step.
  rewrite <-(length_insert heap pos c).
  apply (IH _ _ _ _ c).
  - apply list_lookup_insert_Some.
    destruct (decide (pos = childpos')) as [->|]; [left|right]; eauto.
  - eapply hole_move; eauto.
Qed.

(** Fuel [endpos - childpos] is enough for the loop of [_siftup]. *)
Lemma _siftup_loop_fuel fuel1 :
  ∀ fuel2 heap endpos pos childpos,
    endpos - childpos ≤ fuel1 → endpos - childpos ≤ fuel2 →
    _siftup_loop fuel1 heap endpos pos childpos
    = _siftup_loop fuel2 heap endpos pos childpos.
Proof.
  induction fuel1 as [|fuel1 IH]; intros [|fuel2] heap endpos pos childpos
    H1 H2; cbn [_siftup_loop]; try done.
  - rewrite decide_False by lia. done.
  - rewrite decide_False by lia. done.
  - destruct (decide (childpos < endpos)); [|done].
    assert (∀ m : result nat,
      (∀ c', m = Ok c' → childpos ≤ c') →
      (childpos' ← m; c ← getitem heap childpos';
       heap0 ← setitem heap pos c;
       _siftup_loop fuel1 heap0 endpos childpos' (2 * childpos' + 1))
      = (childpos' ← m; c ← getitem heap childpos';
         heap0 ← setitem heap pos c;
         _siftup_loop fuel2 heap0 endpos childpos' (2 * childpos' + 1)))
      as Hstep.
    { intros [c'|] Hm; monad_step; [|done]. specialize (Hm _ eq_refl).
      destruct (getitem heap c'); monad_step; [|done].
      destruct (setitem heap pos a); monad_step; [|done].
      apply IH; lia. }
    apply Hstep. intros c'.
    destruct (decide (childpos + 1 < endpos)); [|intros [= <-]; lia].
    destruct (getitem heap childpos); monad_step; [|done].
    destruct (getitem heap (childpos + 1)); monad_step; [|done].
    destruct (negb _); intros [= <-]; lia.
Qed.

Lemma _siftup_perm heap pos :
  pos < length heap →
  ∃ heap', _siftup heap pos = Ok heap' ∧ heap' ≡ₚ heap.
Proof.
  intros Hpos. destruct (lookup_lt_is_Some_2 heap pos Hpos) as [x Hx].
  unfold _siftup. rewrite (getitem_Ok _ _ _ Hx). monad_step.
  destruct (_siftup_loop_perm (length heap) heap pos (2 * pos + 1) x x heap
    Hx ltac:(done)) as (heap' & pos' & hp' & -> & Hpos' & Hinv).
  monad_step. pose proof (lookup_lt_Some _ _ _ Hpos') as Hlt.
  rewrite setitem_Ok by done. monad_step.
  destruct (_siftdown_perm (<[pos':=x]> heap') pos pos')
    as (heap'' & -> & Hperm); [by rewrite length_insert|].
  exists heap''. split; [done|].
  rewrite Hperm. eapply hole_fill; eauto.
Qed.

Lemma heappush_perm heap item :
  ∃ heap', heappush heap item = Ok heap' ∧ heap' ≡ₚ item :: heap.
Proof.
  unfold heappush.
  destruct (_siftdown_perm (heap ++ [item]) 0 (length (heap ++ [item]) - 1))
    as (heap' & -> & Hperm); [rewrite length_app; simpl; lia|].
  exists heap'. split; [done|].
  rewrite Hperm. by rewrite Permutation_app_comm.
Qed.

Lemma heappop_perm heap :
  heap ≠ [] →
  ∃ item heap', heappop heap = Ok (item, heap') ∧ item :: heap' ≡ₚ heap.
Proof.
  intros Hne. unfold heappop.
  destruct (last heap) as [lastelt|] eqn:Hlast;
    [|by apply last_None in Hlast].
  apply last_Some in Hlast as [heap0 ->].
  rewrite removelast_last. destruct heap0 as [|returnitem heap0].
  { exists lastelt, []. done. }
  rewrite setitem_Ok by (simpl; lia). monad_step.
  cbn [insert list_insert].
  destruct (_siftup_perm (lastelt :: heap0) 0) as (heap' & -> & Hperm);
    [simpl; lia|].
  monad_step. exists returnitem, heap'. split; [done|].
  rewrite Hperm. simpl. apply Permutation_skip.
  by rewrite Permutation_app_comm.
Qed.

End heapq_facts.

(** ** Dictionaries *)

Section DictFacts.
Context {K V : Type} `{EqDecision K}.
Implicit Types (d : dict K V) (k : K) (v : V).

Lemma dict_get_None d k : dict_get d k = None ↔ k ∉ dict_keys d.
Proof.
  unfold dict_keys. induction d as [|[k' v'] d IH]; simpl.
  - split; [intros _; apply not_elem_of_nil|done].
  - rewrite not_elem_of_cons. destruct (decide (k = k')); [|tauto].
    split; [done|]. by intros [? _].
Qed.

Lemma dict_get_Some_elem d k v : dict_get d k = Some v → (k, v) ∈ d.
Proof.
  induction d as [|[k' v'] d IH]; simpl; [done|].
  destruct (decide (k = k')) as [->|].
  - intros [= ->]. left.
  - intros. right. auto.
Qed.

Lemma dict_get_elem d k v :
  NoDup (dict_keys d) → (k, v) ∈ d → dict_get d k = Some v.
Proof.
  unfold dict_keys. induction d as [|[k' v'] d IH]; simpl.
  - intros _ Hin. by apply elem_of_nil in Hin.
  - rewrite NoDup_cons. intros [Hk' Hd] Hin.
    apply elem_of_cons in Hin as [[= <- <-]|Hin].
    + by rewrite decide_True.
    + rewrite decide_False; [auto|]. intros ->. apply Hk'.
      apply list_elem_of_fmap. by exists (k', v).
Qed.

Lemma dict_set_fresh d k v : k ∉ dict_keys d → dict_set d k v = d ++ [(k, v)].
Proof.
  unfold dict_keys. induction d as [|[k' v'] d IH]; simpl; [done|].
  rewrite not_elem_of_cons. intros [Hne Hk].
  rewrite decide_False by done. by rewrite IH.
Qed.

Lemma dict_set_keys d k v :
  dict_keys (dict_set d k v)
  = if dict_mem d k then dict_keys d else dict_keys d ++ [k].
Proof.
  unfold dict_keys, dict_mem. induction d as [|[k' v'] d IH]; csimpl; [done|].
  destruct (decide (k = k')) as [->|]; csimpl; [done|].
  rewrite IH. by destruct (dict_get d k).
Qed.

Lemma dict_set_NoDup d k v :
  NoDup (dict_keys d) → NoDup (dict_keys (dict_set d k v)).
Proof.
  intros Hd. rewrite dict_set_keys. unfold dict_mem.
  destruct (dict_get d k) eqn:Hget; [done|].
  apply dict_get_None in Hget.
  apply NoDup_app. split_and!; [done| |apply NoDup_singleton].
  intros x Hx ->%list_elem_of_singleton. done.
Qed.

Lemma dict_set_elem_of_keys d k v k' :
  k' ∈ dict_keys (dict_set d k v) ↔ k' = k ∨ k' ∈ dict_keys d.
Proof.
  rewrite dict_set_keys. unfold dict_mem.
  destruct (dict_get d k) eqn:Hget.
  - split; [auto|]. intros [->|]; [|done].
    apply dict_get_Some_elem in Hget. unfold dict_keys.
    apply list_elem_of_fmap. by exists (k, v0).
  - rewrite elem_of_app, list_elem_of_singleton. tauto.
Qed.

(** Assigning fresh keys one after the other appends the items. *)
Lemma foldl_dict_set_fresh (l : list (K * V)) d :
  NoDup (dict_keys d ++ l.*1) →
  foldl (λ m kv, dict_set m kv.1 kv.2) d l = d ++ l.
Proof.
  unfold dict_keys. revert d.
  induction l as [|[k v] l IH]; intros d Hnd; simpl.
  - by rewrite app_nil_r.
  - rewrite dict_set_fresh.
    + rewrite IH; [by rewrite <-app_assoc|].
      rewrite fmap_app. simpl. by rewrite <-app_assoc.
    + apply NoDup_app in Hnd as (_ & Hnd & _). intros Hk.
      apply (Hnd _ Hk). simpl. left.
Qed.
End DictFacts.

(** ** The frequency table *)

Lemma Counter_keys (data : list byte) :
  NoDup (dict_keys (Counter data))
  ∧ ∀ b, b ∈ dict_keys (Counter data) ↔ b ∈ data.
Proof.
  unfold Counter.
  cut (∀ m : dict byte Z,
    NoDup (dict_keys m) →
    let m' := foldl (λ m elem,
                dict_set m elem (default 0 (dict_get m elem) + 1)%Z) m data in
    NoDup (dict_keys m')
    ∧ ∀ b, b ∈ dict_keys m' ↔ b ∈ dict_keys m ∨ b ∈ data).
  { intros Hcut. destruct (Hcut [] (NoDup_nil_2)) as [Hnd Hin].
    split; [done|]. intros b. rewrite Hin. simpl.
    split; [intros [Hb|]; [by apply elem_of_nil in Hb|done]|auto]. }
  induction data as [|x data IH]; intros m Hm; simpl.
  - split; [done|]. intros b. rewrite elem_of_nil. tauto.
  - destruct (IH (dict_set m x (default 0 (dict_get m x) + 1)%Z)
                 (dict_set_NoDup _ _ _ Hm)) as [Hnd Hin].
    split; [done|]. intros b.
    rewrite Hin, dict_set_elem_of_keys, elem_of_cons. tauto.
Qed.

(** ** The tree *)

Lemma is_bit_c0 : is_bit c0.
Proof. by left. Qed.

Lemma is_bit_c1 : is_bit c1.
Proof. by right. Qed.

Lemma code_list_keys node : ∀ cur, (code_list node cur).*1 = leaves node.
Proof.
  unfold leaves. induction node as [[ch|] f l r IHl IHr] using HuffmanNode_ind;
    intros cur; simpl; [done|].
  rewrite !fmap_app. f_equal.
  - destruct l as [l|]; simpl in *; [|done]. by rewrite IHl, (IHl [c0]).
  - destruct r as [r|]; simpl in *; [|done]. by rewrite IHr, (IHr [c1]).
Qed.

Lemma _build_codes_node_codes node : ∀ cur self,
  codes (_build_codes_node node cur self)
  = foldl (λ m kv, dict_set m kv.1 kv.2) (codes self) (code_list node cur).
Proof.
  induction node as [[ch|] f l r IHl IHr] using HuffmanNode_ind;
    intros cur self; simpl; [done|].
  rewrite foldl_app.
  destruct r as [r|]; simpl in *.
  - rewrite IHr. f_equal. destruct l as [l|]; simpl in *; [|done]. apply IHl.
  - destruct l as [l|]; simpl in *; [|done]. apply IHl.
Qed.

Lemma leaves_merged f node1 node2 :
  leaves (mkNode None f (Some node1) (Some node2))
  = leaves node1 ++ leaves node2.
Proof. unfold leaves. simpl. by rewrite fmap_app, !code_list_keys. Qed.

Lemma code_list_extends node : ∀ cur kv,
  cur ≠ [] → kv ∈ code_list node cur → cur `prefix_of` kv.2.
Proof.
  induction node as [[ch|] f l r IHl IHr] using HuffmanNode_ind;
    intros cur kv Hcur; simpl.
  - intros ->%list_elem_of_singleton. by destruct cur.
  - intros [Hin|Hin]%elem_of_app.
    + destruct l as [l|]; simpl in *; [|by apply elem_of_nil in Hin].
      eapply prefix_app_l, IHl; [|done]. by destruct cur.
    + destruct r as [r|]; simpl in *; [|by apply elem_of_nil in Hin].
      eapply prefix_app_l, IHr; [|done]. by destruct cur.
Qed.

Lemma code_list_bits node : ∀ cur kv,
  Forall is_bit cur → kv ∈ code_list node cur →
  kv.2 ≠ [] ∧ Forall is_bit kv.2.
Proof.
  induction node as [[ch|] f l r IHl IHr] using HuffmanNode_ind;
    intros cur kv Hcur; simpl.
  - intros ->%list_elem_of_singleton. destruct cur; simpl; [|done].
    split; [done|]. apply Forall_singleton, is_bit_c0.
  - intros [Hin|Hin]%elem_of_app.
    + destruct l as [l|]; simpl in *; [|by apply elem_of_nil in Hin].
      eapply IHl; [|done]. apply Forall_app. split; [done|].
      apply Forall_singleton, is_bit_c0.
    + destruct r as [r|]; simpl in *; [|by apply elem_of_nil in Hin].
      eapply IHr; [|done]. apply Forall_app. split; [done|].
      apply Forall_singleton, is_bit_c1.
Qed.

Lemma branches_incomparable (cur x y : str) (a b : ascii) :
  a ≠ b → cur ++ [a] `prefix_of` x → cur ++ [b] `prefix_of` y →
  ¬ x `prefix_of` y.
Proof.
  intros Hab [kx ->] [ky ->] [k Hk]. rewrite <-!app_assoc in Hk.
  apply app_inv_head in Hk. simpl in Hk. congruence.
Qed.

(** Two different leaves never get comparable codes. *)
Lemma code_list_incomparable node : ∀ cur i j kv1 kv2,
  i ≠ j →
  code_list node cur !! i = Some kv1 →
  code_list node cur !! j = Some kv2 →
  ¬ kv1.2 `prefix_of` kv2.2.
Proof.
  induction node as [[ch|] f l r IHl IHr] using HuffmanNode_ind;
    intros cur i j kv1 kv2 Hij; simpl.
  - intros [-> _]%list_lookup_singleton_Some [-> _]%list_lookup_singleton_Some.
    done.
  - assert (cur ++ [c0] ≠ []) as Hl0 by (by destruct cur).
    assert (cur ++ [c1] ≠ []) as Hr0 by (by destruct cur).
    set (L := match l with
              | Some l0 => code_list l0 (cur ++ [c0]) | None => [] end).
    set (R := match r with
              | Some r0 => code_list r0 (cur ++ [c1]) | None => [] end).
    assert (∀ kv, kv ∈ L → cur ++ [c0] `prefix_of` kv.2) as HL.
    { subst L. destruct l as [l|]; intros kv Hkv;
        [by eapply code_list_extends|by apply elem_of_nil in Hkv]. }
    assert (∀ kv, kv ∈ R → cur ++ [c1] `prefix_of` kv.2) as HR.
    { subst R. destruct r as [r|]; intros kv Hkv;
        [by eapply code_list_extends|by apply elem_of_nil in Hkv]. }
    intros [Hi|[Hi1 Hi]]%lookup_app_Some [Hj|[Hj1 Hj]]%lookup_app_Some.
    + subst L. destruct l as [l|]; simpl in *; [eauto|done].
    + eapply (branches_incomparable cur _ _ c0 c1); [done|..].
      * apply HL. by eapply list_elem_of_lookup_2.
      * apply HR. by eapply list_elem_of_lookup_2.
    + eapply (branches_incomparable cur _ _ c1 c0); [done|..].
      * apply HR. by eapply list_elem_of_lookup_2.
      * apply HL. by eapply list_elem_of_lookup_2.
    + subst R. destruct r as [r|]; simpl in *; [|done].
      eapply (IHr _ (i - length L) (j - length L)); [lia|done..].
Qed.

(** ** Building the tree *)

Lemma _build_min_heap_loop_perm items : ∀ heap,
  ∃ heap', _build_min_heap_loop items heap = Ok heap'
           ∧ heap' ≡ₚ heap ++ ((λ kv, leaf_node kv.1 kv.2) <$> items).
Proof.
  induction items as [|[ch f] items IH]; intros heap; simpl.
  - exists heap. by rewrite app_nil_r.
  - destruct (heapq_facts.heappush_perm heap (leaf_node ch f))
      as (heap1 & -> & Hperm1). monad_step.
    destruct (IH heap1) as (heap' & -> & Hperm). exists heap'.
    split; [done|]. rewrite Hperm, Hperm1. simpl.
    by rewrite Permutation_middle.
Qed.

Lemma _merge_nodes_loop_root fuel : ∀ heap,
  heap ≠ [] → length heap ≤ S fuel →
  ∃ root, _merge_nodes_loop fuel heap = Ok [root]
          ∧ leaves root ≡ₚ heap ≫= leaves.
Proof.
  induction fuel as [|fuel IH]; intros heap Hne Hlen; cbn [_merge_nodes_loop].
  - destruct heap as [|root [|? ?]]; simplify_eq/=; [|lia].
    exists root. by rewrite app_nil_r.
  - destruct (decide (1 < length heap)) as [Hlt|Hlt]; last first.
    { destruct heap as [|root [|? ?]]; simplify_eq/=; [|lia].
      exists root. by rewrite app_nil_r. }
    destruct (heapq_facts.heappop_perm heap Hne)
      as (node1 & heap1 & -> & Hperm1). monad_step.
    assert (length heap = S (length heap1)) as Hlen1 by (by rewrite <-Hperm1).
    assert (heap1 ≠ []) as Hne1 by (intros ->; simpl in *; lia).
    destruct (heapq_facts.heappop_perm heap1 Hne1)
      as (node2 & heap2 & -> & Hperm2). monad_step.
    assert (length heap1 = S (length heap2)) as Hlen2 by (by rewrite <-Hperm2).
    destruct (heapq_facts.heappush_perm heap2
      (mkNode None (freq node1 + freq node2) (Some node1) (Some node2)))
      as (heap3 & -> & Hperm3). monad_step.
    destruct (IH heap3) as (root & -> & Hroot).
    + intros ->. by apply Permutation_nil_cons in Hperm3.
    + rewrite Hperm3. simpl. lia.
    + exists root. split; [done|].
      rewrite Hroot, Hperm3, <-Hperm1, <-Hperm2. simpl.
      by rewrite leaves_merged, <-app_assoc.
Qed.

Lemma _merge_nodes_root heap :
  heap ≠ [] →
  ∃ root, _merge_nodes heap = Ok [root] ∧ leaves root ≡ₚ heap ≫= leaves.
Proof. intros Hne. apply _merge_nodes_loop_root; [done|lia]. Qed.

(** Fuel [len(self.heap) - 1] is enough for the loop of [_merge_nodes]:
    any larger fuel gives the same heap. *)
Lemma _merge_nodes_loop_fuel fuel1 : ∀ fuel2 heap,
  length heap ≤ S fuel1 → length heap ≤ S fuel2 →
  _merge_nodes_loop fuel1 heap = _merge_nodes_loop fuel2 heap.
Proof.
  induction fuel1 as [|fuel1 IH]; intros [|fuel2] heap H1 H2;
    cbn [_merge_nodes_loop]; try done.
  - rewrite decide_False by lia. done.
  - rewrite decide_False by lia. done.
  - destruct (decide (1 < length heap)) as [Hlt|Hlt]; [|done].
    assert (heap ≠ []) as Hne by (intros ->; simpl in *; lia).
    destruct (heapq_facts.heappop_perm heap Hne)
      as (node1 & heap1 & -> & Hperm1). monad_step.
    assert (length heap = S (length heap1)) as Hlen1 by (by rewrite <-Hperm1).
    assert (heap1 ≠ []) as Hne1 by (intros ->; simpl in *; lia).
    destruct (heapq_facts.heappop_perm heap1 Hne1)
      as (node2 & heap2 & -> & Hperm2). monad_step.
    assert (length heap1 = S (length heap2)) as Hlen2 by (by rewrite <-Hperm2).
    destruct (heapq_facts.heappush_perm heap2
      (mkNode None (freq node1 + freq node2) (Some node1) (Some node2)))
      as (heap3 & -> & Hperm3). monad_step.
    apply IH; rewrite Hperm3; simpl; lia.
Qed.

(** ** The code table *)

Lemma leaf_nodes_leaves (frequency : dict byte Z) :
  ((λ kv, leaf_node kv.1 kv.2) <$> frequency) ≫= leaves
  = dict_keys frequency.
Proof.
  unfold dict_keys. induction frequency as [|[ch f] fr IH]; csimpl; [done|].
  by rewrite IH.
Qed.

Lemma _build_codes_root root :
  NoDup (leaves root) → codes (_build_codes [root]) = code_list root [].
Proof.
  intros Hnd. unfold _build_codes.
  destruct root as [[ch|] f l r]; simpl; [done|].
  change (codes (_build_codes_node (mkNode None f l r) [] (mkTables [] []))
          = code_list (mkNode None f l r) []).
  rewrite _build_codes_node_codes, foldl_dict_set_fresh; [done|].
  rewrite code_list_keys. exact Hnd.
Qed.

Lemma build_code_table_ok (frequency : dict byte Z) :
  NoDup (dict_keys frequency) → frequency ≠ [] →
  ∃ table, build_code_table frequency = Ok table
           ∧ code_table_ok (dict_keys frequency) table.
Proof.
  intros Hnd Hne. unfold build_code_table, _build_min_heap.
  destruct (_build_min_heap_loop_perm frequency [])
    as (heap & -> & Hheap). monad_step. simpl in Hheap.
  destruct (_merge_nodes_root heap) as (root & -> & Hroot).
  { intros ->. apply Permutation_nil in Hheap. by destruct frequency. }
  monad_step. rewrite Hheap, leaf_nodes_leaves in Hroot.
  assert (NoDup (leaves root)) as Hleaves by (by rewrite Hroot).
  rewrite (_build_codes_root root Hleaves).
  exists (code_list root []). split; [done|]. split.
  - unfold dict_keys. by rewrite code_list_keys.
  - intros b. unfold dict_keys at 1. by rewrite code_list_keys, Hroot.
  - intros kv. by apply code_list_bits.
  - apply code_list_incomparable.
Qed.

Lemma code_table_prefix_free symbols table :
  code_table_ok symbols table → prefix_free table.
Proof.
  intros [Hnd _ _ Hinc] b1 b2 s1 s2 Hne H1 H2.
  apply dict_get_Some_elem, list_elem_of_lookup in H1 as [i Hi].
  apply dict_get_Some_elem, list_elem_of_lookup in H2 as [j Hj].
  apply (Hinc i j (b1, s1) (b2, s2)); [|done..].
  intros ->. congruence.
Qed.

(** C7: for every non-empty frequency table (a dictionary, so its keys are
    distinct), tree construction and code assignment return a code table,
    and in it no symbol's code is a prefix (proper or not) of another
    symbol's code. *)
Theorem C7_prefix_free (frequency : dict byte Z) :
  NoDup (dict_keys frequency) → frequency ≠ [] →
  ∃ table, build_code_table frequency = Ok table ∧ prefix_free table.
Proof.
  intros Hnd Hne.
  destruct (build_code_table_ok frequency Hnd Hne) as (table & Htable & Hok).
  exists table. split; [done|]. by eapply code_table_prefix_free.
Qed.

Lemma C7_prefix_free_witness :
  NoDup (dict_keys [("a"%byte, 2%Z); ("b"%byte, 1%Z); ("c"%byte, 1%Z)])
  ∧ ∃ table,
      build_code_table [("a"%byte, 2%Z); ("b"%byte, 1%Z); ("c"%byte, 1%Z)]
      = Ok table
      ∧ prefix_free table.
Proof.
  assert (NoDup (dict_keys [("a"%byte, 2%Z); ("b"%byte, 1%Z); ("c"%byte, 1%Z)]))
    as Hnd by (apply (bool_decide_unpack _); vm_compute; exact I).
  split; [exact Hnd|].
  apply (C7_prefix_free _ Hnd). discriminate.
Defined.

(** ** Packing bits into bytes *)

Lemma dict_get_set {K V} `{EqDecision K} (d : dict K V) k v k' :
  dict_get (dict_set d k v) k'
  = if decide (k' = k) then Some v else dict_get d k'.
Proof.
  induction d as [|[k0 v0] d IH]; simpl.
  - by destruct (decide (k' = k)).
  - destruct (decide (k = k0)) as [->|Hk]; simpl.
    + by destruct (decide (k' = k0)).
    + rewrite IH. destruct (decide (k' = k0)) as [->|]; [|done].
      by rewrite decide_False.
Qed.

Lemma to_bit_string_bind (compressed_data : list byte) :
  to_bit_string compressed_data = compressed_data ≫= format_08b.
Proof.
  unfold to_bit_string.
  cut (∀ acc, foldl (λ bit_string byte, bit_string ++ format_08b byte) acc
                compressed_data = acc ++ (compressed_data ≫= format_08b)).
  { intros Hcut. apply (Hcut []). }
  induction compressed_data as [|x l IH]; intros acc; csimpl.
  - by rewrite app_nil_r.
  - by rewrite IH, app_assoc.
Qed.

(** A byte printed with [08b] is 8 binary digits that [int(_, 2)] reads
    back. *)
Lemma format_08b_spec (x : byte) :
  length (format_08b x) = 8
  ∧ int2 (format_08b x) = Ok (Byte.to_N x).
Proof. destruct x; split; vm_compute; reflexivity. Qed.

(** Eight binary digits make a byte that prints back to them. *)
Lemma chunk_spec (a b c d e f g h : ascii) :
  is_bit a → is_bit b → is_bit c → is_bit d →
  is_bit e → is_bit f → is_bit g → is_bit h →
  ∃ n x, int2 [a; b; c; d; e; f; g; h] = Ok n
         ∧ Byte.of_N n = Some x
         ∧ format_08b x = [a; b; c; d; e; f; g; h].
Proof.
  intros [->| ->] [->| ->] [->| ->] [->| ->] [->| ->] [->| ->] [->| ->] [->| ->];
    do 2 eexists; split_and!; vm_compute; reflexivity.
Qed.

Lemma _get_byte_array_loop_spec n : ∀ (s : str) acc,
  length s = 8 * n → Forall is_bit s →
  ∃ bs, _get_byte_array_loop (chunks8 s) acc = Ok (acc ++ bs)
        ∧ bs ≫= format_08b = s ∧ length bs = n.
Proof.
  induction n as [|n IH]; intros s acc Hlen Hbits.
  - destruct s; [|done]. exists []. by rewrite app_nil_r.
  - destruct s as [|a [|b [|c [|d [|e [|f [|g [|h s]]]]]]]];
      simpl in Hlen; try lia.
    repeat match goal with
           | H : Forall _ (_ :: _) |- _ => apply Forall_cons in H as [? H]
           end.
    destruct (chunk_spec a b c d e f g h) as (k & x & Hk & Hx & Hfmt);
      [done..|].
    cbn [_get_byte_array_loop chunks8]. rewrite Hk. monad_step.
    unfold bytearray_append. rewrite Hx. monad_step.
    destruct (IH s (acc ++ [x])) as (bs & -> & Hbs & Hlbs); [lia|done|].
    exists (x :: bs). split_and!.
    + by rewrite <-app_assoc.
    + csimpl. by rewrite Hfmt, Hbs.
    + simpl. lia.
Qed.

Lemma _get_byte_array_spec (s : str) :
  length s `mod` 8 = 0 → Forall is_bit s →
  ∃ bs, _get_byte_array s = Ok bs
        ∧ bs ≫= format_08b = s ∧ length bs = length s `div` 8.
Proof.
  intros Hmod Hbits. unfold _get_byte_array.
  rewrite decide_False by lia.
  apply (_get_byte_array_loop_spec (length s `div` 8) s []); [|done].
  pose proof (Nat.div_mod_eq (length s) 8). lia.
Qed.

Lemma _pad_encoded_data_spec (encoded_data : str) :
  let n := length encoded_data in
  let padding := 8 - n `mod` 8 in
  1 ≤ padding ≤ 8
  ∧ (padding = 8 ↔ n `mod` 8 = 0)
  ∧ _pad_encoded_data encoded_data
    = (encoded_data ++ replicate (if decide (padding ≠ 8) then padding else 0) c0,
       padding)
  ∧ length (_pad_encoded_data encoded_data).1 `mod` 8 = 0
  ∧ length (_pad_encoded_data encoded_data).1 `div` 8 = (n + 7) `div` 8.
Proof.
  intros n padding. unfold _pad_encoded_data. fold n. fold padding.
  pose proof (Nat.mod_upper_bound n 8 ltac:(done)) as Hmod.
  pose proof (Nat.div_mod_eq n 8) as Hdiv.
  assert (1 ≤ padding ≤ 8) as Hpad by (subst padding; lia).
  split_and!; [lia|lia|subst padding; lia| | |].
  - destruct (decide (padding ≠ 8)); [done|]. by rewrite app_nil_r.
  - destruct (decide (padding ≠ 8)) as [Hp|Hp]; cbn [fst].
    + rewrite length_app, length_replicate. fold n.
      replace (n + padding) with (8 * (n `div` 8 + 1)) by (subst padding; lia).
      by rewrite Nat.mul_comm, Nat.Div0.mod_mul.
    + fold n. subst padding. lia.
  - destruct (decide (padding ≠ 8)) as [Hp|Hp]; cbn [fst].
    + rewrite length_app, length_replicate. fold n.
      replace (n + padding) with ((n `div` 8 + 1) * 8) by (subst padding; lia).
      rewrite Nat.div_mul by done.
      apply Nat.div_unique with (n `mod` 8 - 1); subst padding; lia.
    + fold n. apply Nat.div_unique with 7; subst padding; lia.
Qed.

(** ** The inverse table *)

Lemma invert_codes_Some (table : dict byte str) s b :
  dict_get (invert_codes table) s = Some b → (b, s) ∈ table.
Proof.
  unfold invert_codes.
  cut (∀ m : dict str byte,
    dict_get (foldl (λ m kv, dict_set m kv.2 kv.1) m table) s = Some b →
    dict_get m s = Some b ∨ (b, s) ∈ table).
  { intros Hcut Hget. by destruct (Hcut [] Hget). }
  induction table as [|[k v] table IH]; intros m; simpl; [auto|].
  intros [Hget|Hin]%IH; [|right; by right].
  rewrite dict_get_set in Hget.
  destruct (decide (s = v)) as [->|]; [|auto].
  injection Hget as ->. right. left.
Qed.

Lemma invert_codes_elem (table : dict byte str) s b :
  (b, s) ∈ table → (∀ b', (b', s) ∈ table → b' = b) →
  dict_get (invert_codes table) s = Some b.
Proof.
  unfold invert_codes.
  cut (∀ m : dict str byte,
    dict_get m s = Some b ∨ (b, s) ∈ table →
    (∀ b', (b', s) ∈ table → b' = b) →
    dict_get (foldl (λ m kv, dict_set m kv.2 kv.1) m table) s = Some b).
  { intros Hcut Hin Huniq. apply Hcut; auto. }
  induction table as [|[k v] table IH]; intros m Hm Huniq; simpl.
  - destruct Hm as [Hm|Hm]; [done|by apply elem_of_nil in Hm].
  - apply IH; [|intros b' Hb'; apply Huniq; by right].
    rewrite dict_get_set. destruct (decide (s = v)) as [->|Hsv].
    + left. f_equal. apply Huniq. left.
    + destruct Hm as [Hm|Hm]; [by left|right].
      apply elem_of_cons in Hm as [[= -> ->]|Hm]; done.
Qed.

(** ** Decoding with a prefix-free table *)

Section Decoding.
Context (symbols : list byte) (table : dict byte str).
Context (Htable : code_table_ok symbols table).

Local Abbreviation R := (invert_codes table).

Lemma code_unique b1 b2 s :
  (b1, s) ∈ table → (b2, s) ∈ table → b1 = b2.
Proof using Htable.
  intros [i Hi]%list_elem_of_lookup [j Hj]%list_elem_of_lookup.
  destruct (decide (i = j)) as [->|Hij]; [congruence|].
  by destruct (table_incomparable _ _ Htable i j _ _ Hij Hi Hj).
Qed.

Lemma R_code b s : dict_get table b = Some s → dict_get R s = Some b.
Proof using Htable.
  intros Hget%dict_get_Some_elem. apply invert_codes_elem; [done|].
  intros b' Hb'. by eapply code_unique.
Qed.

Lemma R_Some s b : dict_get R s = Some b → dict_get table b = Some s.
Proof using Htable.
  intros Hget%invert_codes_Some.
  apply dict_get_elem; [apply Htable|done].
Qed.

Lemma code_nonempty b s : dict_get table b = Some s → s ≠ [].
Proof using Htable.
  intros Hget%dict_get_Some_elem.
  by destruct (table_bits _ _ Htable _ Hget).
Qed.

(** A proper prefix of a code is not in the inverse table. *)
Lemma R_prefix_None b s p :
  dict_get table b = Some s → p `prefix_of` s → p ≠ s →
  dict_get R p = None.
Proof using Htable.
  intros Hs Hpre Hne. destruct (dict_get R p) as [b'|] eqn:Hp; [|done].
  apply R_Some in Hp. destruct (decide (b' = b)) as [->|Hb]; [congruence|].
  by destruct (code_table_prefix_free _ _ Htable b' b p s).
Qed.

(** Reading the rest [s2] of a code emits its symbol. *)
Lemma _decode_loop_code b rest : ∀ s2 s1 out,
  dict_get table b = Some (s1 ++ s2) → s2 ≠ [] →
  _decode_loop R (s2 ++ rest) s1 out = _decode_loop R rest [] (out ++ [b]).
Proof using Htable.
  induction s2 as [|c s2 IH]; intros s1 out Hcode Hne; [done|].
  cbn [_decode_loop app].
  destruct s2 as [|c' s2].
  - rewrite (R_code _ _ Hcode). done.
  - rewrite (R_prefix_None b _ (s1 ++ [c]) Hcode).
    + apply IH; [by rewrite <-app_assoc|done].
    + exists (c' :: s2). by rewrite <-app_assoc.
    + intros Heq. apply (f_equal length) in Heq.
      rewrite !length_app in Heq. simpl in Heq. lia.
Qed.

(** Reading bits that stop inside a code emits nothing. *)
Lemma _decode_loop_stuck b s : ∀ s2 s1 out,
  dict_get table b = Some s → s1 ++ s2 `prefix_of` s → s1 ++ s2 ≠ s →
  _decode_loop R s2 s1 out = (s1 ++ s2, out).
Proof using Htable.
  induction s2 as [|c s2 IH]; intros s1 out Hcode Hpre Hne.
  - by rewrite app_nil_r.
  - cbn [_decode_loop]. rewrite (R_prefix_None b s (s1 ++ [c]) Hcode).
    + rewrite IH; rewrite <-?app_assoc. all: done.
    + apply (prefix_app_l _ _ s2). by rewrite <-app_assoc.
    + intros Heq. destruct Hpre as [k Hk]. rewrite <-Heq in Hk.
      rewrite <-!app_assoc in Hk. apply app_inv_head in Hk.
      injection Hk as Hk. destruct s2; [|done]. by rewrite Heq in Hne.
Qed.

Lemma _decode_loop_encoded : ∀ data encoded rest out,
  _get_encoded_data table data = Ok encoded →
  _decode_loop R (encoded ++ rest) [] out
  = _decode_loop R rest [] (out ++ data).
Proof using Htable.
  induction data as [|b data IH]; intros encoded rest out; simpl.
  - intros [= <-]. by rewrite app_nil_r.
  - unfold dict_getitem. destruct (dict_get table b) as [s|] eqn:Hs;
      monad_step; [|done].
    destruct (_get_encoded_data table data) as [enc|]; monad_step; [|done].
    intros [= <-]. rewrite <-app_assoc.
    rewrite (_decode_loop_code b _ s []); [|done|by eapply code_nonempty].
    rewrite (IH enc); [|done]. by rewrite <-app_assoc.
Qed.

(** Decoding the encoded data gives the data back. *)
Lemma _decode_data_encoded data encoded :
  _get_encoded_data table data = Ok encoded →
  _decode_data R encoded = Ok data.
Proof using Htable.
  intros Henc. unfold _decode_data.
  rewrite <-(app_nil_r encoded), (_decode_loop_encoded data encoded [] []);
    done.
Qed.

(** Decoding a prefix of the encoded data stops inside a code or gives a
    prefix of the data; for a proper prefix, a proper prefix. *)
Lemma _decode_loop_prefix : ∀ data encoded s out,
  _get_encoded_data table data = Ok encoded →
  s `prefix_of` encoded →
  ∃ cur d, _decode_loop R s [] out = (cur, out ++ d)
           ∧ d `prefix_of` data
           ∧ (s ≠ encoded → d ≠ data).
Proof using Htable.
  induction data as [|b data IH]; intros encoded s out; simpl.
  - intros [= <-] ->%prefix_nil_inv. exists [], [].
    by rewrite app_nil_r.
  - unfold dict_getitem. destruct (dict_get table b) as [code|] eqn:Hs;
      monad_step; [|done].
    destruct (_get_encoded_data table data) as [enc|] eqn:Henc;
      monad_step; [|done].
    intros [= <-] Hpre.
    destruct (prefix_weak_total s code (code ++ enc) Hpre)
      as [Hsc|[s' ->]]; [by apply prefix_app_r| |].
    + destruct (decide (s = code)) as [->|Hne].
      * destruct (IH enc [] (out ++ [b]) eq_refl (prefix_nil _))
          as (cur & d & Hd & Hdpre & Hdne).
        exists cur, (b :: d). split_and!.
        -- rewrite <-(app_nil_r code),
             (_decode_loop_code b [] code []);
             [|done|by eapply code_nonempty].
           by rewrite Hd, <-app_assoc.
        -- by apply prefix_cons.
        -- intros Hneq [= ->]. apply Hdne; [|done].
           intros <-. by rewrite app_nil_r in Hneq.
      * exists s, []. split_and!.
        -- rewrite (_decode_loop_stuck b code s [] out); [|done..].
           by rewrite app_nil_r.
        -- apply prefix_nil.
        -- done.
    + apply prefix_app_inv in Hpre.
      destruct (IH enc s' (out ++ [b]) eq_refl Hpre)
        as (cur & d & Hd & Hdpre & Hdne).
      exists cur, (b :: d). split_and!.
      * rewrite (_decode_loop_code b _ code []);
          [|done|by eapply code_nonempty].
        by rewrite Hd, <-app_assoc.
      * by apply prefix_cons.
      * intros Hneq [= ->]. apply Hdne; [|done]. by intros ->.
Qed.
End Decoding.

(** ** [compress] and [decompress] *)

Lemma _get_encoded_data_ok symbols table (data : list byte) :
  code_table_ok symbols table → (∀ b, b ∈ data → b ∈ symbols) →
  ∃ encoded, _get_encoded_data table data = Ok encoded
             ∧ Forall is_bit encoded
             ∧ length encoded = total_code_bits table data
             ∧ (data ≠ [] → encoded ≠ []).
Proof.
  intros Htable. unfold total_code_bits.
  induction data as [|b data IH]; intros Hdata; csimpl.
  - by exists [].
  - destruct IH as (enc & -> & Hbits & Hlen & _).
    { intros b' Hb'. apply Hdata. by right. }
    assert (b ∈ dict_keys table) as Hb.
    { apply (table_keys _ _ Htable), Hdata. left. }
    unfold dict_getitem.
    destruct (dict_get table b) as [code|] eqn:Hcode;
      [|by apply dict_get_None in Hcode].
    monad_step. exists (code ++ enc).
    destruct (table_bits _ _ Htable _ (dict_get_Some_elem _ _ _ Hcode))
      as [Hne Hcbits]. simpl in *.
    split_and!; [done|by apply Forall_app|by rewrite length_app, Hlen|].
    intros _. by destruct code.
Qed.

Lemma decompress_cons meta body codes :
  decompress (meta :: body) codes
  = _decode_data (invert_codes codes) (payload_bits meta body).
Proof.
  unfold decompress, decode_bit_string, payload_bits.
  rewrite !to_bit_string_bind. csimpl.
  destruct (format_08b_spec meta) as [Hlen Hint].
  rewrite take_app_length', drop_app_length' by done.
  rewrite Hint. done.
Qed.

(** What [compress] returns on a non-empty input. *)
Lemma compress_spec (data : list byte) :
  data ≠ [] →
  ∃ table encoded meta body,
    compress data = Ok (meta :: body, table)
    ∧ code_table_ok (dict_keys (Counter data)) table
    ∧ _get_encoded_data table data = Ok encoded
    ∧ encoded ≠ []
    ∧ length encoded = total_code_bits table data
    ∧ Byte.to_N meta = N.of_nat (8 - length encoded `mod` 8)
    ∧ to_bit_string body = (_pad_encoded_data encoded).1
    ∧ length body = (length encoded + 7) `div` 8.
Proof.
  intros Hne. destruct (Counter_keys data) as [Hnd Hkeys].
  destruct (build_code_table_ok (Counter data) Hnd) as (table & Htable & Hok).
  { intros Hnil. destruct data as [|b data]; [done|].
    assert (b ∈ dict_keys (Counter (b :: data))) as Hb by (apply Hkeys; left).
    rewrite Hnil in Hb. by apply elem_of_nil in Hb. }
  unfold build_code_table in Htable.
  apply bind_Ok in Htable as (heap1 & Hheap1 & Htable).
  apply bind_Ok in Htable as (heap2 & Hheap2 & [= Htable]).
  destruct (_get_encoded_data_ok _ table data Hok)
    as (encoded & Henc & Hbits & Hlen & Hencne); [by intros b ?%Hkeys|].
  destruct (_pad_encoded_data_spec encoded)
    as (Hpad & Hpad8 & Hpadded & Hmod & Hdiv).
  destruct (_get_byte_array_spec (_pad_encoded_data encoded).1 Hmod)
    as (body & Hbody & Hbodybits & Hbodylen).
  { rewrite Hpadded. simpl. apply Forall_app. split; [done|].
    apply Forall_replicate, is_bit_c0. }
  destruct (Byte.of_N (N.of_nat (8 - length encoded `mod` 8)))
    as [meta|] eqn:Hmeta; [|apply Byte.of_N_None_iff in Hmeta; lia].
  exists table, encoded, meta, body. split_and!; try done.
  - unfold compress. destruct data as [|b data]; [done|].
    unfold _build_frequency_dict. rewrite Hheap1. monad_step.
    rewrite Hheap2. monad_step. rewrite Htable, Henc. monad_step.
    rewrite Hpadded in Hbody |- *. cbn [fst] in Hbody. rewrite Hbody.
    monad_step. unfold bytearray_append. rewrite Hmeta. done.
  - auto.
  - by apply Byte.to_of_N.
  - by rewrite to_bit_string_bind.
  - by rewrite Hbodylen, Hdiv.
Qed.

(** ** The claims *)

(** C9: for every non-empty byte sequence whose total encoded bit-length
    is not a multiple of 8, [compress] returns a packed output and a code
    table, and [decompress] of the two returns the byte sequence. *)
Theorem C9_roundtrip_unaligned (d : list byte) :
  d ≠ [] →
  ∃ packed table,
    compress d = Ok (packed, table)
    ∧ (total_code_bits table d `mod` 8 ≠ 0 →
       decompress packed table = Ok d).
Proof.
  intros Hne.
  destruct (compress_spec d Hne) as (table & encoded & meta & body & Hc & Hok
    & Henc & _ & Hlen & Hmeta & Hbody & _).
  exists (meta :: body), table. split; [done|]. rewrite <-Hlen. intros Hmod.
  rewrite decompress_cons. unfold payload_bits. rewrite Hbody, Hmeta.
  destruct (_pad_encoded_data_spec encoded) as (Hpad & Hpad8 & -> & _).
  cbn [fst]. rewrite decide_True by lia.
  unfold _remove_padding. rewrite decide_True by lia.
  rewrite Nat2N.id, length_app, length_replicate.
  rewrite take_app_length' by lia.
  by eapply _decode_data_encoded.
Qed.

Lemma C9_roundtrip_unaligned_witness :
  bytes_of "abracadabra" ≠ []
  ∧ ∃ packed table,
      compress (bytes_of "abracadabra") = Ok (packed, table)
      ∧ total_code_bits table (bytes_of "abracadabra") `mod` 8 ≠ 0
      ∧ decompress packed table = Ok (bytes_of "abracadabra").
Proof.
  assert (bytes_of "abracadabra" ≠ []) as Hne by discriminate.
  split; [exact Hne|].
  destruct (C9_roundtrip_unaligned _ Hne) as (packed & table & Hc & Hrt).
  exists packed, table.
  assert (total_code_bits table (bytes_of "abracadabra") `mod` 8 ≠ 0) as Hmod.
  { vm_compute in Hc. injection Hc as _ <-. vm_compute. discriminate. }
  auto.
Defined.

(** Without truncation [decompress_truncated] is [decompress]. *)
Lemma decompress_truncated_0 compressed_data codes :
  decompress_truncated 0 compressed_data codes
  = decompress compressed_data codes.
Proof.
  destruct compressed_data as [|meta body]; [done|].
  unfold decompress_truncated, decompress, truncate_bits.
  rewrite Nat.sub_0_r, firstn_all, (to_bit_string_bind (meta :: body)).
  csimpl. by rewrite <-to_bit_string_bind.
Qed.

(** The decoder after a truncation: it decodes a proper prefix of the
    encoded data. *)
Lemma truncated_decode (d : list byte) (k : nat) :
  d ≠ [] → 1 ≤ k ≤ 7 →
  ∃ packed table encoded s,
    compress d = Ok (packed, table)
    ∧ code_table_ok (dict_keys (Counter d)) table
    ∧ _get_encoded_data table d = Ok encoded
    ∧ s `prefix_of` encoded ∧ s ≠ encoded
    ∧ decompress_truncated k packed table
      = _decode_data (invert_codes table) s.
Proof.
  intros Hne Hk.
  destruct (compress_spec d Hne) as (table & encoded & meta & body & Hc & Hok
    & Henc & Hencne & Hlen & Hmeta & Hbody & _).
  destruct (_pad_encoded_data_spec encoded) as (Hpad & Hpad8 & Hpadded & _).
  set (n := length encoded) in *. set (p := 8 - n `mod` 8) in *.
  set (z := if decide (p ≠ 8) then p else 0) in *.
  assert (1 ≤ n) as Hn by (subst n; destruct encoded; simpl; [done|lia]).
  assert (z = if decide (p ≠ 8) then p else 0) as Hz by done.
  assert (p = 8 - n `mod` 8) as Hp by done.
  pose proof (Nat.div_mod_eq n 8) as Hdiv.
  pose proof (Nat.mod_upper_bound n 8 ltac:(done)) as Hmod.
  clearbody z p.
  assert (k ≤ n + z ∧ n + z - k - p < n) as [Hk1 Hk2]
    by (destruct (decide (p ≠ 8)); lia).
  exists (meta :: body), table, encoded, (take (n + z - k - p) encoded).
  split_and!; [done..|apply prefix_take| |].
  { intros Heq. apply (f_equal length) in Heq. rewrite length_take in Heq.
    fold n in Heq. lia. }
  destruct (format_08b_spec meta) as [Hfmt Hint].
  unfold decompress_truncated, decode_bit_string, truncate_bits.
  rewrite (take_app_length' (format_08b meta)),
    (drop_app_length' (format_08b meta)) by done.
  rewrite Hint. monad_step. rewrite Hmeta, Hbody, Hpadded. cbn [fst].
  unfold _remove_padding. rewrite decide_True by lia.
  rewrite Nat2N.id, take_take, length_take, length_app, length_replicate.
  fold n. f_equal.
  replace (((n + z - k) `min` (n + z) - p) `min` (n + z - k))
    with (n + z - k - p) by lia.
  apply take_app_le. fold n. lia.
Qed.

(** On an input whose code bits fill whole bytes the stored padding count
    is 8 and the round trip loses the last 8 data bits: [decompress] never
    returns the input. *)
Lemma roundtrip_fails_aligned (d : list byte) :
  d ≠ [] →
  ∃ packed table,
    compress d = Ok (packed, table)
    ∧ (total_code_bits table d `mod` 8 = 0 →
       decompress packed table ≠ Ok d).
Proof.
  intros Hne.
  destruct (compress_spec d Hne) as (table & encoded & meta & body & Hc & Hok
    & Henc & Hencne & Hlen & Hmeta & Hbody & _).
  exists (meta :: body), table. split; [done|]. rewrite <-Hlen. intros Hmod.
  rewrite decompress_cons. unfold payload_bits. rewrite Hbody, Hmeta.
  destruct (_pad_encoded_data_spec encoded) as (Hpad & Hpad8 & -> & _).
  cbn [fst]. rewrite decide_False by lia. rewrite app_nil_r.
  unfold _remove_padding. rewrite decide_True by lia. rewrite Nat2N.id.
  destruct (_decode_loop_prefix _ _ Hok d encoded
    (take (length encoded - (8 - length encoded `mod` 8)) encoded) [] Henc
    (prefix_take _ _)) as (cur & d' & Hloop & Hd' & Hd'ne).
  unfold _decode_data. rewrite Hloop. destruct cur; [|done].
  intros [= ->]. apply Hd'ne; [|done].
  intros Heq. apply (f_equal length) in Heq. rewrite length_take in Heq.
  destruct encoded; simpl in *; [done|lia].
Qed.

(** C3, as stated, fails: one bit less of the packed [b"aaaa"] decodes,
    with no error, to [b"aaa"]. *)
Lemma C3_counterexample : ¬ truncation_detected (bytes_of "aaaa") 1.
Proof.
  intros H. specialize (H _ _ eq_refl). vm_compute in H. discriminate H.
Qed.


(** C5: [compress] of the empty byte sequence returns the empty bytes and
    the empty code table, with no padding byte; [decompress] of the empty
    packed sequence returns the empty byte sequence, whatever the code
    table. *)
Theorem C5_empty_input :
  compress [] = Ok ([], [])
  ∧ ∀ codes, decompress [] codes = Ok [].
Proof. done. Qed.

(** C6: compressing [b"aaaa"] gives the code table [{97: "0"}] with the
    packed bytes [4, 0]; the payload bits are four zero bits, and
    decompressing gives [b"aaaa"] back. *)
Theorem C6_single_symbol :
  compress (bytes_of "aaaa")
  = Ok (["004"; "000"]%byte, [("a"%byte, [c0])])
  ∧ payload_bits "004"%byte ["000"%byte] = [c0; c0; c0; c0]
  ∧ decompress ["004"; "000"]%byte [("a"%byte, [c0])]
    = Ok (bytes_of "aaaa").
Proof. split_and!; vm_compute; reflexivity. Qed.

(** C8: on the 1875 bytes [b"a"*1000 + b"b"*500 + b"c"*250 + b"d"*125],
    [compress] returns a packed output (padding byte and packed body) of
    392 bytes, fewer than 1875. *)
Theorem C8_skewed_input_shrinks :
  length skewed_input = 1875
  ∧ ∃ packed table,
      compress skewed_input = Ok (packed, table)
      ∧ length packed = 392
      ∧ length packed < length skewed_input.
Proof.
  split; [vm_compute; reflexivity|].
  destruct (compress skewed_input) as [[packed table]|e] eqn:Hc;
    vm_compute in Hc; [|discriminate Hc].
  injection Hc as <- <-. do 2 eexists. split; [reflexivity|].
  split; vm_compute; [reflexivity|lia].
Qed.



(** C1 fails on the code: on [b"aaaaaaaa"], whose 8 code bits fill a byte,
    [compress] stores the padding count 8 and [decompress] drops the 8
    data bits: the round trip returns the empty byte sequence. *)
Theorem C1_roundtrip_fails_aligned :
  compress (bytes_of "aaaaaaaa")
  = Ok (["008"; "000"]%byte, [("a"%byte, [c0])])
  ∧ decompress ["008"; "000"]%byte [("a"%byte, [c0])] = Ok []
  ∧ (x ← compress (bytes_of "aaaaaaaa"); decompress x.1 x.2)
    ≠ Ok (bytes_of "aaaaaaaa").
Proof. split_and!; vm_compute; [reflexivity..|discriminate]. Qed.

(** C2 fails on the code: the 8 code bits of [b"aaaaaaaa"] need no
    padding, [(8 - 8 mod 8) mod 8 = 0], and the metadata byte that
    [compress] writes is 8. *)
Theorem C2_metadata_byte_eight :
  ∃ meta body table,
    compress (bytes_of "aaaaaaaa") = Ok (meta :: body, table)
    ∧ total_code_bits table (bytes_of "aaaaaaaa") = 8
    ∧ (8 - 8 `mod` 8) `mod` 8 = 0
    ∧ Byte.to_N meta = 8%N
    ∧ ¬ (0 ≤ Byte.to_N meta ≤ 7)%N.
Proof.
  do 3 eexists. split; [vm_compute; reflexivity|].
  split_and!; try (vm_compute; reflexivity). vm_compute. intros [_ H]. done.
Qed.

(** * Further properties of the code *)

(** ** The frequency table *)

Lemma Counter_fold_get (data : list byte) : ∀ (m : dict byte Z) b,
  dict_get (foldl (λ m elem,
              dict_set m elem (default 0 (dict_get m elem) + 1)%Z) m data) b
  = match occurrences b data with
    | 0 => dict_get m b
    | S n => Some (default 0 (dict_get m b) + Z.of_nat (S n))%Z
    end.
Proof.
  unfold occurrences.
  induction data as [|x data IH]; intros m b; [done|].
  cbn [foldl]. rewrite IH, dict_get_set, filter_cons.
  destruct (decide (x = b)) as [->|Hx].
  - rewrite decide_True by done. cbn [length from_option id].
    destruct (length (filter (λ x, x = b) data)) as [|n];
      cbn [from_option id]; f_equal; lia.
  - rewrite decide_False by done.
    by destruct (length (filter (λ x, x = b) data)).
Qed.

(** X1: [_build_frequency_dict] maps every byte of the data to its number
    of occurrences, and has no entry for a byte that does not occur. *)
Theorem X1_frequency_counts (data : list byte) (b : byte) :
  dict_get (_build_frequency_dict data) b
  = match occurrences b data with
    | 0 => None
    | S n => Some (Z.of_nat (S n))
    end.
Proof.
  unfold _build_frequency_dict, Counter. rewrite Counter_fold_get.
  by destruct (occurrences b data).
Qed.

(** ** Encoding and packing *)

(** X2: [_get_encoded_data] raises [KeyError] exactly when some byte of
    the data has no entry in the code table (it raises nothing else);
    otherwise it returns the codes of the bytes, joined in order. *)
Theorem X2_encoded_data_or_KeyError (table : dict byte str)
    (data : list byte) :
  _get_encoded_data table data
  = if decide (Forall (λ b, is_Some (dict_get table b)) data)
    then Ok (data ≫= λ b, default [] (dict_get table b))
    else Raise KeyError.
Proof.
  induction data as [|b data IH]; [done|].
  cbn [_get_encoded_data]. unfold dict_getitem. rewrite IH.
  destruct (dict_get table b) as [code|] eqn:Hb; monad_step.
  - destruct (decide (Forall _ data)) as [Hd|Hd]; monad_step.
    + rewrite decide_True by (constructor; [by rewrite Hb|done]).
      csimpl. by rewrite Hb.
    + rewrite decide_False; [done|]. by intros [_ ?]%Forall_cons.
  - rewrite decide_False; [done|].
    intros [Hs _]%Forall_cons. rewrite Hb in Hs. by destruct Hs.
Qed.

(** X3: [_pad_encoded_data] returns its input followed by [z] zero bits,
    [z = (8 - len mod 8) mod 8], a string whose length is the next
    multiple of 8; the count it returns is [8 - len mod 8], from 1 to 8,
    and differs from [z] exactly on an aligned input, where it is 8. *)
Theorem X3_pad_encoded_data (encoded_data : str) :
  let n := length encoded_data in
  let z := (8 - n `mod` 8) `mod` 8 in
  let '(padded, padding) := _pad_encoded_data encoded_data in
  padded = encoded_data ++ replicate z c0
  ∧ length padded = 8 * ceil_div8 n
  ∧ padding = 8 - n `mod` 8
  ∧ 1 ≤ padding ≤ 8
  ∧ (padding ≠ z ↔ n `mod` 8 = 0).
Proof.
  cbv zeta.
  destruct (_pad_encoded_data_spec encoded_data)
    as (Hpad & Hpad8 & Hpadded & Hmod & Hdiv).
  rewrite Hpadded in Hmod, Hdiv |- *. cbn [fst] in *.
  pose proof (Nat.mod_upper_bound (length encoded_data) 8 ltac:(done)) as Hn.
  set (m := length encoded_data `mod` 8) in *.
  assert ((if decide (8 - m ≠ 8) then 8 - m else 0) = (8 - m) `mod` 8) as Hz.
  { destruct (decide (8 - m ≠ 8)) as [Hp|Hp].
    - by rewrite Nat.mod_small by lia.
    - apply dec_stable in Hp. by rewrite Hp. }
  rewrite Hz in *. split_and!; [done| |done|lia|lia|].
  - unfold ceil_div8. rewrite <-Hdiv.
    pose proof (Nat.div_mod_eq
      (length (encoded_data ++ replicate ((8 - m) `mod` 8) c0)) 8).
    lia.
  - destruct (decide (m = 0)) as [Hm|Hm].
    + rewrite Hm. split; [done|]. by intros _.
    + rewrite Nat.mod_small by lia. split; [done|lia].
Qed.

Lemma format_08b_bits (x : byte) : Forall is_bit (format_08b x).
Proof.
  destruct x;
    match goal with
    | |- Forall is_bit ?l =>
        let l' := eval vm_compute in l in change (Forall is_bit l')
    end;
    repeat (apply Forall_cons; split;
            [first [left; reflexivity | right; reflexivity]|]);
    apply Forall_nil_2.
Qed.

Lemma to_bit_string_length (bs : list byte) :
  length (to_bit_string bs) = 8 * length bs ∧ Forall is_bit (to_bit_string bs).
Proof.
  rewrite to_bit_string_bind. induction bs as [|x bs [IH1 IH2]]; csimpl.
  - by split.
  - rewrite length_app, IH1. split.
    + destruct (format_08b_spec x) as [-> _]. lia.
    + apply Forall_app. split; [|done]. apply format_08b_bits.
Qed.

Lemma _get_byte_array_loop_bits (bs : list byte) : ∀ acc,
  _get_byte_array_loop (chunks8 (to_bit_string bs)) acc = Ok (acc ++ bs).
Proof.
  rewrite to_bit_string_bind.
  induction bs as [|x bs IH]; intros acc; csimpl.
  - by rewrite app_nil_r.
  - destruct (format_08b_spec x) as [Hlen Hint].
    destruct (format_08b x) as [|a [|b [|c [|d [|e [|f [|g [|h [|? ?]]]]]]]]]
      eqn:Hfmt; try done.
    cbn [app chunks8 _get_byte_array_loop]. rewrite Hint. monad_step.
    unfold bytearray_append. rewrite Byte.of_to_N. monad_step.
    by rewrite IH, <-app_assoc.
Qed.

(** X4: packing is the inverse of unpacking: the bit-string that
    [decompress] builds from a byte sequence is packed by
    [_get_byte_array] into the same bytes. *)
Theorem X4_pack_unpacked_bytes (bs : list byte) :
  _get_byte_array (to_bit_string bs) = Ok bs.
Proof.
  unfold _get_byte_array. destruct (to_bit_string_length bs) as [Hlen _].
  rewrite decide_False.
  - apply (_get_byte_array_loop_bits bs []).
  - rewrite Hlen, Nat.mul_comm, Nat.Div0.mod_mul. by intros [].
Qed.

(** X5: unpacking is the inverse of packing: on a string of binary digits
    whose length is a multiple of 8, [_get_byte_array] returns
    [len / 8] bytes, and the bit-string that [decompress] builds from
    them is the string. *)
Theorem X5_unpack_packed_bits (s : str) :
  length s `mod` 8 = 0 → Forall is_bit s →
  ∃ bs, _get_byte_array s = Ok bs
        ∧ to_bit_string bs = s
        ∧ length bs = length s `div` 8.
Proof.
  intros Hmod Hbits.
  destruct (_get_byte_array_spec s Hmod Hbits) as (bs & Hbs & Hs & Hlen).
  exists bs. by rewrite to_bit_string_bind.
Qed.

Lemma X5_unpack_packed_bits_witness :
  length [c0; c1; c0; c0; c0; c0; c0; c1] `mod` 8 = 0
  ∧ ∃ bs, _get_byte_array [c0; c1; c0; c0; c0; c0; c0; c1] = Ok bs
          ∧ to_bit_string bs = [c0; c1; c0; c0; c0; c0; c0; c1]
          ∧ length bs = length [c0; c1; c0; c0; c0; c0; c0; c1] `div` 8.
Proof.
  split; [reflexivity|].
  apply X5_unpack_packed_bits; [reflexivity|].
  repeat (constructor; [first [apply is_bit_c0 | apply is_bit_c1]|]).
  constructor.
Defined.

(** X7: [_remove_padding] applied to what [_pad_encoded_data] returns
    gives the string back when its length is not a multiple of 8, and
    the string without its last 8 characters when it is; so it gives the
    string back exactly when the length is not a multiple of 8 or the
    string is empty. *)
Theorem X7_remove_padding_of_padded (encoded_data : str) :
  let '(padded, padding) := _pad_encoded_data encoded_data in
  let r := _remove_padding padded (N.of_nat padding) in
  r = (if decide (length encoded_data `mod` 8 = 0)
       then take (length encoded_data - 8) encoded_data
       else encoded_data)
  ∧ (r = encoded_data
     ↔ length encoded_data `mod` 8 ≠ 0 ∨ encoded_data = []).
Proof.
  destruct (_pad_encoded_data_spec encoded_data)
    as (Hpad & Hpad8 & -> & _).
  cbn zeta. unfold _remove_padding. rewrite decide_True by lia.
  rewrite Nat2N.id.
  pose proof (Nat.div_mod_eq (length encoded_data) 8) as Hdiv.
  destruct (decide (length encoded_data `mod` 8 = 0)) as [Hm|Hm].
  - rewrite decide_False by lia. rewrite app_nil_r.
    replace (length encoded_data - (8 - length encoded_data `mod` 8))
      with (length encoded_data - 8) by lia.
    split; [done|]. split.
    + intros Heq. right. apply (f_equal length) in Heq.
      rewrite length_take in Heq. apply length_zero_iff_nil. lia.
    + intros [?| ->]; done.
  - rewrite decide_True by lia.
    rewrite length_app, length_replicate.
    rewrite take_app_length' by lia. split; [done|]. split; auto.
Qed.

(** ** What [compress] returns *)

Lemma _get_encoded_data_join (table : dict byte str) (data : list byte)
    encoded :
  _get_encoded_data table data = Ok encoded →
  encoded = data ≫= λ b, default [] (dict_get table b).
Proof.
  revert encoded. induction data as [|b data IH]; intros encoded; csimpl.
  - by intros [= <-].
  - unfold dict_getitem. destruct (dict_get table b) as [code|];
      monad_step; [|done].
    destruct (_get_encoded_data table data) as [enc|]; monad_step; [|done].
    intros [= <-]. by rewrite (IH enc).
Qed.

(** X8: [compress] raises on no input, and the code table it returns has
    exactly the distinct bytes of the input as keys, each once, each with
    a non-empty code made of the characters '0' and '1'. *)
Theorem X8_compress_table (d : list byte) :
  ∃ packed table,
    compress d = Ok (packed, table)
    ∧ NoDup (dict_keys table)
    ∧ (∀ b, b ∈ dict_keys table ↔ b ∈ d)
    ∧ (∀ b code, dict_get table b = Some code →
         code ≠ [] ∧ Forall is_bit code).
Proof.
  destruct (decide (d = [])) as [->|Hne].
  - exists [], []. split_and!; [done|constructor|done|done].
  - destruct (compress_spec d Hne) as (table & encoded & meta & body & Hc & Hok
      & _). destruct (Counter_keys d) as [_ Hkeys].
    exists (meta :: body), table. split_and!; [done|apply Hok| |].
    + intros b. by rewrite (table_keys _ _ Hok), Hkeys.
    + intros b code Hget%dict_get_Some_elem.
      apply (table_bits _ _ Hok _ Hget).
Qed.



(** X10: when the code bits of a non-empty input fill whole bytes,
    [decompress] of what [compress] returned raises the decode-integrity
    error or returns a proper prefix of the input: the stored count 8
    makes it drop the last 8 data bits. *)
Theorem X10_aligned_roundtrip_loses_bits (d : list byte) :
  d ≠ [] →
  ∃ packed table,
    compress d = Ok (packed, table)
    ∧ (total_code_bits table d `mod` 8 = 0 →
       decompress packed table = Raise IncompleteCodeError
       ∨ ∃ d', decompress packed table = Ok d'
               ∧ d' `prefix_of` d ∧ d' ≠ d).
Proof.
  intros Hne.
  destruct (compress_spec d Hne) as (table & encoded & meta & body & Hc & Hok
    & Henc & Hencne & Hlen & Hmeta & Hbody & _).
  exists (meta :: body), table. split; [done|]. rewrite <-Hlen. intros Hmod.
  rewrite decompress_cons. unfold payload_bits. rewrite Hbody, Hmeta.
  destruct (_pad_encoded_data_spec encoded) as (Hpad & Hpad8 & -> & _).
  cbn [fst]. rewrite decide_False by lia. rewrite app_nil_r.
  unfold _remove_padding. rewrite decide_True by lia. rewrite Nat2N.id.
  destruct (_decode_loop_prefix _ _ Hok d encoded
    (take (length encoded - (8 - length encoded `mod` 8)) encoded) [] Henc
    (prefix_take _ _)) as (cur & d' & Hloop & Hd' & Hd'ne).
  unfold _decode_data. rewrite Hloop. destruct cur; [|by left].
  right. exists d'. split_and!; [done..|]. apply Hd'ne.
  intros Heq. apply (f_equal length) in Heq. rewrite length_take in Heq.
  destruct encoded; simpl in *; [done|lia].
Qed.

Lemma X10_aligned_roundtrip_loses_bits_witness :
  bytes_of "abababab" ≠ []
  ∧ ∃ packed table,
      compress (bytes_of "abababab") = Ok (packed, table)
      ∧ total_code_bits table (bytes_of "abababab") `mod` 8 = 0
      ∧ (decompress packed table = Raise IncompleteCodeError
         ∨ ∃ d', decompress packed table = Ok d'
                 ∧ d' `prefix_of` bytes_of "abababab"
                 ∧ d' ≠ bytes_of "abababab").
Proof.
  assert (bytes_of "abababab" ≠ []) as Hne by discriminate.
  split; [exact Hne|].
  destruct (X10_aligned_roundtrip_loses_bits _ Hne)
    as (packed & table & Hc & Hrt).
  exists packed, table.
  assert (total_code_bits table (bytes_of "abababab") `mod` 8 = 0) as Hmod.
  { vm_compute in Hc. injection Hc as _ <-. vm_compute. reflexivity. }
  auto.
Defined.

(** ** What [decompress] returns *)

Lemma _get_encoded_data_bits (table : dict byte str) (data : list byte)
    encoded :
  (∀ b code, dict_get table b = Some code → Forall is_bit code) →
  _get_encoded_data table data = Ok encoded → Forall is_bit encoded.
Proof.
  intros Hbits. revert encoded.
  induction data as [|b data IH]; intros encoded; csimpl.
  - intros [= <-]. constructor.
  - unfold dict_getitem. destruct (dict_get table b) as [code|] eqn:Hb;
      monad_step; [|done].
    destruct (_get_encoded_data table data) as [enc|]; monad_step; [|done].
    intros [= <-]. apply Forall_app. split; [by eapply Hbits|by apply IH].
Qed.

Lemma code_table_ok_intro (table : dict byte str) :
  NoDup (dict_keys table) →
  (∀ b code, dict_get table b = Some code → code ≠ [] ∧ Forall is_bit code) →
  prefix_free table →
  code_table_ok (dict_keys table) table.
Proof.
  intros Hnd Hbits Hpf. split; [done|done| |].
  - intros [b code] Hin. apply (Hbits b). by apply dict_get_elem.
  - intros i j [b1 s1] [b2 s2] Hij Hi Hj. apply (Hpf b1 b2).
    + intros ->. apply Hij. apply (NoDup_lookup _ i j b2 Hnd).
      * apply (list_lookup_fmap_Some_2 fst _ _ _ Hi).
      * apply (list_lookup_fmap_Some_2 fst _ _ _ Hj).
    + apply dict_get_elem; [done|]. by eapply list_elem_of_lookup_2.
    + apply dict_get_elem; [done|]. by eapply list_elem_of_lookup_2.
Qed.

(** X11: [decompress] inverts every packing that stores the true number
    of padding bits.  For a code table with non-empty binary codes, none
    a prefix of another symbol's code: when the codes of [data] followed
    by [p] zero bits are packed into [body] and the metadata byte is
    [p], [decompress] returns [data]. *)
Theorem X11_decompress_true_padding (table : dict byte str)
    (data : list byte) (encoded : str) (p : nat) (meta : byte)
    (body : list byte) :
  NoDup (dict_keys table) →
  (∀ b code, dict_get table b = Some code → code ≠ [] ∧ Forall is_bit code) →
  prefix_free table →
  _get_encoded_data table data = Ok encoded →
  _get_byte_array (encoded ++ replicate p c0) = Ok body →
  Byte.to_N meta = N.of_nat p →
  decompress (meta :: body) table = Ok data.
Proof.
  intros Hnd Hbits Hpf Henc Hbody Hmeta.
  pose proof (code_table_ok_intro table Hnd Hbits Hpf) as Hok.
  assert (to_bit_string body = encoded ++ replicate p c0) as Hbodybits.
  { unfold _get_byte_array in Hbody.
    destruct (decide (length (encoded ++ replicate p c0) `mod` 8 ≠ 0))
      as [Hm|Hm]; [done|]. pose proof (dec_stable Hm) as Hm0.
    destruct (_get_byte_array_spec (encoded ++ replicate p c0) Hm0)
      as (bs & Hbs & Hbits' & _).
    - apply Forall_app. split; [|apply Forall_replicate, is_bit_c0].
      eapply _get_encoded_data_bits; [|done].
      intros b code Hcode. by apply (Hbits b).
    - unfold _get_byte_array in Hbs. rewrite decide_False in Hbs by done.
      rewrite to_bit_string_bind. congruence. }
  rewrite decompress_cons. unfold payload_bits, _remove_padding.
  rewrite Hbodybits, Hmeta, Nat2N.id.
  destruct (decide (0 < N.of_nat p)%N) as [Hp|Hp].
  - rewrite length_app, length_replicate, take_app_length' by lia.
    by eapply _decode_data_encoded.
  - assert (p = 0) as -> by lia. rewrite app_nil_r.
    by eapply _decode_data_encoded.
Qed.

Lemma abc_table_ok :
  NoDup (dict_keys abc_table)
  ∧ (∀ b code, dict_get abc_table b = Some code →
       code ≠ [] ∧ Forall is_bit code)
  ∧ prefix_free abc_table.
Proof.
  split_and!.
  - apply (bool_decide_unpack _). vm_compute. exact I.
  - intros b code. unfold abc_table. cbn [dict_get].
    repeat case_decide; intros [= <-]; (split; [done|]);
      repeat (apply Forall_cons; split;
              [first [apply is_bit_c0 | apply is_bit_c1]|]);
      apply Forall_nil_2.
  - intros b1 b2 s1 s2 Hne. unfold abc_table. cbn [dict_get].
    repeat case_decide; subst; try done; intros [= <-] [= <-] [k Hk];
      discriminate Hk.
Qed.

Lemma X11_decompress_true_padding_witness :
  decompress ["002"; "X"]%byte abc_table = Ok (bytes_of "abca").
Proof.
  destruct abc_table_ok as (Hnd & Hbits & Hpf).
  apply (X11_decompress_true_padding abc_table (bytes_of "abca")
           [c0; c1; c0; c1; c1; c0] 2 "002"%byte ["X"%byte] Hnd Hbits Hpf);
    reflexivity.
Defined.

Lemma _decode_loop_sound (R : dict str byte) : ∀ s cur out cur' out',
  _decode_loop R s cur out = (cur', out') →
  ∃ segs bs,
    cur ++ s = mjoin segs ++ cur'
    ∧ out' = out ++ bs
    ∧ Forall2 (λ seg b, dict_get R seg = Some b) segs bs.
Proof.
  induction s as [|bit s IH]; intros cur out cur' out'; cbn [_decode_loop].
  - intros [= <- <-]. exists [], []. by rewrite !app_nil_r.
  - destruct (dict_get R (cur ++ [bit])) as [byte|] eqn:Hget.
    + intros (segs & bs & Hs & -> & Hall)%IH.
      exists ((cur ++ [bit]) :: segs), (byte :: bs). split_and!.
      * csimpl. simpl in Hs. by rewrite Hs, <-!app_assoc.
      * by rewrite <-app_assoc.
      * by constructor.
    + intros (segs & bs & Hs & -> & Hall)%IH.
      exists segs, bs. split_and!; [|done..].
      by rewrite <-Hs, <-app_assoc.
Qed.

(** X12: whatever the code table, the bytes that [decompress] returns
    account for every decoded bit: the non-padding bits of the body are
    the concatenation of one code per returned byte, each an entry of the
    table for that byte.  In particular [decompress] returns only bytes
    that are keys of the table. *)
Theorem X12_decompress_sound (meta : byte) (body : list byte)
    (codes : dict byte str) (out : list byte) :
  decompress (meta :: body) codes = Ok out →
  ∃ segs,
    payload_bits meta body = mjoin segs
    ∧ Forall2 (λ seg b, (b, seg) ∈ codes) segs out.
Proof.
  rewrite decompress_cons. unfold _decode_data.
  destruct (_decode_loop (invert_codes codes) (payload_bits meta body) [] [])
    as [cur out'] eqn:Hloop.
  destruct cur; [|done]. intros [= ->].
  apply _decode_loop_sound in Hloop as (segs & bs & Hs & -> & Hall).
  exists segs. rewrite app_nil_r in Hs. split; [done|].
  eapply Forall2_impl; [done|]. intros seg b. apply invert_codes_Some.
Qed.

Lemma X12_decompress_sound_witness :
  ∃ segs,
    payload_bits "002"%byte ["X"%byte] = mjoin segs
    ∧ Forall2 (λ seg b, (b, seg) ∈ abc_table) segs (bytes_of "abca").
Proof.
  apply (X12_decompress_sound "002"%byte ["X"%byte] abc_table).
  reflexivity.
Defined.

(** X13: a metadata byte that counts at least as many bits as the body
    holds makes [decompress] return the empty byte sequence, without an
    error, whatever the body and the code table; so does a packed
    sequence of the metadata byte alone. *)
Theorem X13_decompress_padding_covers_body (meta : byte) (body : list byte)
    (codes : dict byte str) :
  (8 * N.of_nat (length body) ≤ Byte.to_N meta)%N →
  decompress (meta :: body) codes = Ok [].
Proof.
  intros Hmeta. rewrite decompress_cons. unfold payload_bits, _remove_padding.
  destruct (to_bit_string_length body) as [Hlen _].
  destruct (decide (0 < Byte.to_N meta)%N) as [Hp|Hp].
  - rewrite Hlen.
    replace (8 * length body - N.to_nat (Byte.to_N meta)) with 0 by lia.
    done.
  - destruct body as [|x body]; [done|]. simpl in Hmeta. lia.
Qed.

Lemma X13_decompress_padding_covers_body_witness :
  (8 * N.of_nat (length ["X"%byte]) ≤ Byte.to_N "008"%byte)%N
  ∧ decompress ["008"; "X"]%byte abc_table = Ok [].
Proof.
  assert (8 * N.of_nat (length ["X"%byte]) ≤ Byte.to_N "008"%byte)%N as H
    by (vm_compute; discriminate).
  split; [exact H|].
  exact (X13_decompress_padding_covers_body _ _ abc_table H).
Defined.

Lemma _decode_loop_no_match (R : dict str byte) : ∀ s cur out,
  (∀ code, dict_get R code = None) →
  _decode_loop R s cur out = (cur ++ s, out).
Proof.
  induction s as [|bit s IH]; intros cur out HR; cbn [_decode_loop].
  - by rewrite app_nil_r.
  - rewrite HR, IH by done. by rewrite <-app_assoc.
Qed.

(** X14: with the empty code table [decompress] returns the empty byte
    sequence when no bit is left after the padding is removed, and raises
    the decode-integrity error in every other case. *)
Theorem X14_decompress_empty_table (meta : byte) (body : list byte) :
  decompress (meta :: body) []
  = match payload_bits meta body with
    | [] => Ok []
    | _ :: _ => Raise IncompleteCodeError
    end.
Proof.
  rewrite decompress_cons. unfold _decode_data.
  rewrite _decode_loop_no_match by done. done.
Qed.

(** ** The tree and the tables *)

Lemma sum_Z_app l k : sum_Z (l ++ k) = (sum_Z l + sum_Z k)%Z.
Proof. unfold sum_Z. induction l as [|x l IH]; simpl; lia. Qed.

Lemma sum_Z_Permutation l k : l ≡ₚ k → sum_Z l = sum_Z k.
Proof. unfold sum_Z. induction 1; simpl; lia. Qed.

Lemma leaf_items_keys node : (leaf_items node).*1 = leaves node.
Proof.
  induction node as [[ch|] f l r IHl IHr] using HuffmanNode_ind; [done|].
  destruct l as [l|], r as [r|]; simpl in *;
    rewrite ?leaves_merged; unfold leaves; simpl;
    rewrite ?fmap_app, ?code_list_keys, ?app_nil_r; simpl;
    rewrite ?IHl, ?IHr, ?app_nil_r; done.
Qed.

Lemma tree_wf_freq node : tree_wf node → freq node = sum_Z (leaf_items node).*2.
Proof.
  induction node as [[ch|] f l r IHl IHr] using HuffmanNode_ind; simpl.
  - intros _. unfold sum_Z. simpl. lia.
  - destruct l as [l|], r as [r|]; try done. simpl in *.
    intros (-> & Hl & Hr). rewrite fmap_app, sum_Z_app. by rewrite IHl, IHr.
Qed.

Lemma tree_wf_leaves node : tree_wf node → leaves node ≠ [].
Proof.
  rewrite <-leaf_items_keys.
  induction node as [[ch|] f l r IHl IHr] using HuffmanNode_ind; simpl;
    [done|].
  destruct l as [l|], r as [r|]; try done. simpl in *.
  intros (_ & Hl & _) Hnil. apply IHl; [done|].
  rewrite fmap_app in Hnil. by apply app_eq_nil in Hnil as [? _].
Qed.

Lemma _merge_nodes_loop_tree fuel : ∀ heap,
  heap ≠ [] → length heap ≤ S fuel → Forall tree_wf heap →
  ∃ root, _merge_nodes_loop fuel heap = Ok [root]
          ∧ tree_wf root
          ∧ leaf_items root ≡ₚ heap ≫= leaf_items.
Proof.
  induction fuel as [|fuel IH]; intros heap Hne Hlen Hwf;
    cbn [_merge_nodes_loop].
  - destruct heap as [|root [|? ?]]; simplify_eq/=; [|lia].
    exists root. rewrite app_nil_r. apply Forall_inv in Hwf. done.
  - destruct (decide (1 < length heap)) as [Hlt|Hlt]; last first.
    { destruct heap as [|root [|? ?]]; simplify_eq/=; [|lia].
      exists root. rewrite app_nil_r. apply Forall_inv in Hwf. done. }
    destruct (heapq_facts.heappop_perm heap Hne)
      as (node1 & heap1 & -> & Hperm1). monad_step.
    assert (length heap = S (length heap1)) as Hlen1 by (by rewrite <-Hperm1).
    assert (heap1 ≠ []) as Hne1 by (intros ->; simpl in *; lia).
    destruct (heapq_facts.heappop_perm heap1 Hne1)
      as (node2 & heap2 & -> & Hperm2). monad_step.
    assert (length heap1 = S (length heap2)) as Hlen2 by (by rewrite <-Hperm2).
    destruct (heapq_facts.heappush_perm heap2
      (mkNode None (freq node1 + freq node2) (Some node1) (Some node2)))
      as (heap3 & -> & Hperm3). monad_step.
    rewrite <-Hperm1, <-Hperm2 in Hwf.
    apply Forall_cons in Hwf as [Hwf1 Hwf].
    apply Forall_cons in Hwf as [Hwf2 Hwf].
    destruct (IH heap3) as (root & -> & Hroot & Hitems).
    + intros ->. by apply Permutation_nil_cons in Hperm3.
    + rewrite Hperm3. simpl. lia.
    + rewrite Hperm3. by constructor.
    + exists root. split_and!; [done..|].
      rewrite Hitems, Hperm3, <-Hperm1, <-Hperm2. csimpl.
      by rewrite <-app_assoc.
Qed.

Lemma leaf_nodes_items (frequency : dict byte Z) :
  ((λ kv, leaf_node kv.1 kv.2) <$> frequency) ≫= leaf_items = frequency.
Proof.
  induction frequency as [|[ch f] fr IH]; csimpl; [done|]. by rewrite IH.
Qed.

Lemma build_tree_spec (frequency : dict byte Z) :
  frequency ≠ [] →
  ∃ root, build_tree frequency = Ok [root]
          ∧ tree_wf root
          ∧ leaf_items root ≡ₚ frequency.
Proof.
  intros Hne. unfold build_tree, _build_min_heap.
  destruct (_build_min_heap_loop_perm frequency [])
    as (heap & -> & Hheap). monad_step. simpl in Hheap.
  destruct (_merge_nodes_loop_tree (length heap) heap)
    as (root & Hroot & Hwf & Hitems).
  - intros ->. apply Permutation_nil in Hheap. by destruct frequency.
  - lia.
  - rewrite Hheap. apply Forall_fmap, Forall_forall. by intros [ch f] _.
  - exists root. split_and!; [done..|].
    by rewrite Hitems, Hheap, leaf_nodes_items.
Qed.

(** X15: for every non-empty frequency table, [_build_min_heap] and
    [_merge_nodes] leave exactly one node in the heap, the root of a tree
    in which every node is either a leaf without children or has two
    children and the sum of their frequencies; the leaves carry the
    entries of the table, each once, and the frequency of the root is the
    sum of all counts. *)
Theorem X15_tree_shape (frequency : dict byte Z) :
  frequency ≠ [] →
  ∃ root, build_tree frequency = Ok [root]
          ∧ tree_wf root
          ∧ leaf_items root ≡ₚ frequency
          ∧ freq root = sum_Z (dict_values_Z frequency).
Proof.
  intros Hne.
  destruct (build_tree_spec frequency Hne) as (root & Hroot & Hwf & Hitems).
  exists root. split_and!; [done..|].
  rewrite (tree_wf_freq root Hwf). apply sum_Z_Permutation.
  by rewrite Hitems.
Qed.

Lemma X15_tree_shape_witness :
  ∃ root, build_tree [("a"%byte, 5%Z); ("b"%byte, 2%Z); ("c"%byte, 1%Z)]
          = Ok [root]
          ∧ tree_wf root
          ∧ leaf_items root
            ≡ₚ [("a"%byte, 5%Z); ("b"%byte, 2%Z); ("c"%byte, 1%Z)]
          ∧ freq root
            = sum_Z (dict_values_Z
                [("a"%byte, 5%Z); ("b"%byte, 2%Z); ("c"%byte, 1%Z)]).
Proof. apply X15_tree_shape. discriminate. Defined.

Lemma dict_set_sum (m : dict byte Z) (k : byte) :
  sum_Z (dict_set m k (default 0 (dict_get m k) + 1)%Z).*2
  = (sum_Z m.*2 + 1)%Z.
Proof.
  unfold sum_Z. induction m as [|[k' v'] m IH]; csimpl; [lia|].
  destruct (decide (k = k')) as [->|]; csimpl; lia.
Qed.

Lemma Counter_sum (data : list byte) :
  sum_Z (Counter data).*2 = Z.of_nat (length data).
Proof.
  unfold Counter.
  cut (∀ m : dict byte Z,
    sum_Z (foldl (λ m elem,
             dict_set m elem (default 0 (dict_get m elem) + 1)%Z) m data).*2
    = (sum_Z m.*2 + Z.of_nat (length data))%Z).
  { intros Hcut. by rewrite Hcut. }
  induction data as [|x data IH]; intros m; cbn [foldl length].
  - lia.
  - rewrite IH, dict_set_sum. lia.
Qed.

(** X16: the tree that [compress] builds for a non-empty input has at its
    root the length of the input, and at its leaves the distinct bytes of
    the input, each with its number of occurrences. *)
Theorem X16_root_frequency (data : list byte) :
  data ≠ [] →
  ∃ root,
    build_tree (_build_frequency_dict data) = Ok [root]
    ∧ freq root = Z.of_nat (length data)
    ∧ NoDup (leaf_items root).*1
    ∧ ∀ b n, (b, n) ∈ leaf_items root
             ↔ (n = Z.of_nat (occurrences b data) ∧ b ∈ data).
Proof.
  intros Hne. destruct (Counter_keys data) as [Hnd Hkeys].
  destruct (build_tree_spec (_build_frequency_dict data))
    as (root & Hroot & Hwf & Hitems).
  { intros Hnil. destruct data as [|b data]; [done|].
    assert (b ∈ dict_keys (Counter (b :: data))) as Hb by (apply Hkeys; left).
    unfold _build_frequency_dict in Hnil. rewrite Hnil in Hb.
    by apply elem_of_nil in Hb. }
  exists root. split_and!; [done| | |].
  - rewrite (tree_wf_freq root Hwf), <-(Counter_sum data).
    apply sum_Z_Permutation. by rewrite Hitems.
  - by rewrite Hitems.
  - intros b n. rewrite Hitems. unfold _build_frequency_dict. split.
    + intros Hin. assert (b ∈ data) as Hb.
      { apply Hkeys, list_elem_of_fmap. by exists (b, n). }
      split; [|done]. apply (dict_get_elem _ _ _ Hnd) in Hin.
      unfold Counter in Hin. rewrite Counter_fold_get in Hin.
      destruct (occurrences b data); [done|]. by injection Hin as <-.
    + intros [-> Hb]. apply dict_get_Some_elem.
      unfold Counter. rewrite Counter_fold_get.
      destruct (occurrences b data) as [|n] eqn:Hocc; [|f_equal; simpl; lia].
      unfold occurrences in Hocc. apply length_zero_iff_nil in Hocc.
      assert (b ∈ filter (λ x, x = b) data) as Hf
        by (by apply list_elem_of_filter).
      rewrite Hocc in Hf. by apply elem_of_nil in Hf.
Qed.

Lemma X16_root_frequency_witness :
  ∃ root,
    build_tree (_build_frequency_dict (bytes_of "abracadabra")) = Ok [root]
    ∧ freq root = Z.of_nat (length (bytes_of "abracadabra"))
    ∧ NoDup (leaf_items root).*1
    ∧ ∀ b n, (b, n) ∈ leaf_items root
             ↔ (n = Z.of_nat (occurrences b (bytes_of "abracadabra"))
                ∧ b ∈ bytes_of "abracadabra").
Proof. apply X16_root_frequency. discriminate. Defined.

Lemma _build_codes_node_reverse node : ∀ cur self,
  reverse_mapping (_build_codes_node node cur self)
  = foldl (λ m kv, dict_set m kv.2 kv.1) (reverse_mapping self)
          (code_list node cur).
Proof.
  induction node as [[ch|] f l r IHl IHr] using HuffmanNode_ind;
    intros cur self; simpl; [done|].
  rewrite foldl_app.
  destruct r as [r|]; simpl in *.
  - rewrite IHr. f_equal. destruct l as [l|]; simpl in *; [|done]. apply IHl.
  - destruct l as [l|]; simpl in *; [|done]. apply IHl.
Qed.

Lemma _build_codes_root_reverse root :
  reverse_mapping (_build_codes [root]) = invert_codes (code_list root []).
Proof.
  unfold _build_codes, invert_codes.
  destruct root as [[ch|] f l r]; simpl; [done|].
  change (reverse_mapping
            (_build_codes_node (mkNode None f l r) [] (mkTables [] []))
          = foldl (λ m kv, dict_set m kv.2 kv.1) []
              (code_list (mkNode None f l r) [])).
  by rewrite _build_codes_node_reverse.
Qed.

(** X17: the two tables that [_build_codes] fills are inverse to each
    other: [reverse_mapping] holds exactly the entries of [codes] turned
    round, and it is the table that [decompress] rebuilds from
    [codes]. *)
Theorem X17_reverse_mapping_inverse (frequency : dict byte Z) :
  NoDup (dict_keys frequency) →
  ∃ self,
    build_tables frequency = Ok self
    ∧ reverse_mapping self = invert_codes (codes self)
    ∧ ∀ b code,
        dict_get (codes self) b = Some code
        ↔ dict_get (reverse_mapping self) code = Some b.
Proof.
  intros Hnd. destruct (decide (frequency = [])) as [->|Hne].
  { exists (mkTables [] []). split_and!; [done..|]. by intros b code. }
  destruct (build_code_table_ok frequency Hnd Hne) as (table & Htable & Hok).
  destruct (build_tree_spec frequency Hne) as (root & Hroot & Hwf & Hitems).
  unfold build_tables. rewrite Hroot. monad_step.
  unfold build_code_table in Htable. unfold build_tree in Hroot.
  apply bind_Ok in Htable as (heap & Hheap & Htable).
  apply bind_Ok in Htable as (heap2 & Hheap2 & [= Htable]).
  rewrite Hheap in Hroot. cbn [mbind result_bind] in Hroot.
  rewrite Hheap2 in Hroot. injection Hroot as ->.
  eexists. split; [done|].
  assert (NoDup (leaves root)) as Hleaves.
  { rewrite <-leaf_items_keys, Hitems. exact Hnd. }
  rewrite _build_codes_root_reverse.
  rewrite (_build_codes_root root Hleaves) in Htable |- *. subst table.
  split; [done|]. intros b code. split.
  - by apply (R_code _ _ Hok).
  - by apply (R_Some _ _ Hok).
Qed.

Lemma X17_reverse_mapping_inverse_witness :
  ∃ self,
    build_tables [("a"%byte, 2%Z); ("b"%byte, 1%Z); ("c"%byte, 1%Z)] = Ok self
    ∧ reverse_mapping self = invert_codes (codes self)
    ∧ ∀ b code,
        dict_get (codes self) b = Some code
        ↔ dict_get (reverse_mapping self) code = Some b.
Proof.
  apply X17_reverse_mapping_inverse.
  apply (bool_decide_unpack _). vm_compute. exact I.
Defined.

(** ** Code lengths and output size *)

Lemma compress_table_root (d packed : list byte) table root :
  d ≠ [] →
  build_tree (_build_frequency_dict d) = Ok [root] →
  compress d = Ok (packed, table) →
  table = codes (_build_codes [root]).
Proof.
  intros Hne Hroot Hc. unfold build_tree in Hroot.
  apply bind_Ok in Hroot as (heap & Hheap & Hroot).
  unfold compress in Hc. destruct d as [|b d]; [done|].
  rewrite Hheap in Hc. cbn [mbind result_bind] in Hc.
  rewrite Hroot in Hc. cbn [mbind result_bind] in Hc.
  apply bind_Ok in Hc as (encoded & _ & Hc).
  destruct (_pad_encoded_data encoded) as [padded padding].
  apply bind_Ok in Hc as (body & _ & Hc).
  apply bind_Ok in Hc as (meta & _ & Hc).
  by injection Hc as _ <-.
Qed.

Lemma code_list_length node :
  tree_wf node → ∀ cur kv,
  kv ∈ code_list node cur → cur ≠ [] →
  length cur ≤ length kv.2
  ∧ length kv.2 + 1 ≤ length cur + length (leaves node).
Proof.
  induction node as [[ch|] f l r IHl IHr] using HuffmanNode_ind;
    intros Hwf cur kv; simpl in Hwf |- *.
  - intros ->%list_elem_of_singleton Hcur. destruct cur; [done|].
    unfold leaves. simpl. lia.
  - destruct l as [l|], r as [r|]; try done. simpl in *.
    destruct Hwf as (_ & Hl & Hr). rewrite leaves_merged, length_app.
    pose proof (tree_wf_leaves l Hl) as Hll.
    pose proof (tree_wf_leaves r Hr) as Hlr.
    assert (1 ≤ length (leaves l) ∧ 1 ≤ length (leaves r)) as [? ?].
    { destruct (leaves l), (leaves r); simpl; try done; lia. }
    intros [Hin|Hin]%elem_of_app Hcur.
    + destruct (IHl Hl _ _ Hin) as [H1 H2]; [by destruct cur|].
      rewrite length_app in H1, H2. simpl in *. lia.
    + destruct (IHr Hr _ _ Hin) as [H1 H2]; [by destruct cur|].
      rewrite length_app in H1, H2. simpl in *. lia.
Qed.

Lemma code_list_root_length root kv :
  tree_wf root → kv ∈ code_list root [] →
  1 ≤ length kv.2 ≤ Nat.max 1 (length (leaves root) - 1).
Proof.
  destruct root as [[ch|] f l r]; simpl.
  - intros _ ->%list_elem_of_singleton. simpl. lia.
  - destruct l as [l|], r as [r|]; try done.
    intros (_ & Hl & Hr). rewrite leaves_merged, length_app.
    pose proof (tree_wf_leaves l Hl) as Hll.
    pose proof (tree_wf_leaves r Hr) as Hlr.
    assert (1 ≤ length (leaves l) ∧ 1 ≤ length (leaves r)) as [? ?].
    { destruct (leaves l), (leaves r); simpl; try done; lia. }
    intros [Hin|Hin]%elem_of_app.
    + destruct (code_list_length l Hl [c0] kv Hin) as [H1 H2]; [done|].
      simpl in *. lia.
    + destruct (code_list_length r Hr [c1] kv Hin) as [H1 H2]; [done|].
      simpl in *. lia.
Qed.

Lemma NoDup_bytes_length (l : list byte) : NoDup l → length l ≤ 256.
Proof.
  intros Hnd.
  assert (Inj (=) (=) Byte.to_nat) as Hinj.
  { intros x y Hxy. apply (f_equal Byte.of_nat) in Hxy.
    rewrite !Byte.of_to_nat in Hxy. by injection Hxy. }
  rewrite <-(length_fmap Byte.to_nat).
  assert (Byte.to_nat <$> l ⊆+ seq 0 256) as Hsub.
  { apply NoDup_submseteq; [by apply NoDup_fmap_2|].
    intros n (x & -> & _)%list_elem_of_fmap. apply elem_of_seq.
    pose proof (Byte.to_nat_bounded x). lia. }
  apply submseteq_length in Hsub. by rewrite length_seq in Hsub.
Qed.

(** What [compress] returns, with the tree behind the table. *)
Lemma compress_tree_spec (d : list byte) :
  d ≠ [] →
  ∃ root meta body,
    compress d = Ok (meta :: body, code_list root [])
    ∧ tree_wf root
    ∧ NoDup (leaves root)
    ∧ (∀ b, b ∈ leaves root ↔ b ∈ d)
    ∧ length body = ceil_div8 (total_code_bits (code_list root []) d).
Proof.
  intros Hne. destruct (Counter_keys d) as [Hnd Hkeys].
  destruct (build_tree_spec (_build_frequency_dict d))
    as (root & Hroot & Hwf & Hitems).
  { intros Hnil. destruct d as [|b d]; [done|].
    assert (b ∈ dict_keys (Counter (b :: d))) as Hb by (apply Hkeys; left).
    unfold _build_frequency_dict in Hnil. rewrite Hnil in Hb.
    by apply elem_of_nil in Hb. }
  destruct (compress_spec d Hne) as (table & encoded & meta & body & Hc & Hok
    & _ & _ & Hlen & _ & _ & Hbody).
  assert (NoDup (leaves root)) as Hleaves.
  { rewrite <-leaf_items_keys, Hitems. exact Hnd. }
  pose proof (compress_table_root d _ table root Hne Hroot Hc) as Htable.
  rewrite (_build_codes_root root Hleaves) in Htable. subst table.
  exists root, meta, body. split_and!; [done..| |].
  - intros b. rewrite <-leaf_items_keys, Hitems. apply Hkeys.
  - by rewrite Hbody, Hlen.
Qed.

(** X18: in the code table that [compress] returns there are at most 256
    entries, and every code has at least one bit and at most one bit
    less than there are entries (one bit when there is a single entry):
    no code is longer than 255 bits. *)
Theorem X18_code_lengths (d : list byte) :
  ∃ packed table,
    compress d = Ok (packed, table)
    ∧ length table ≤ 256
    ∧ ∀ b code, dict_get table b = Some code →
        1 ≤ length code ≤ Nat.max 1 (length table - 1).
Proof.
  destruct (decide (d = [])) as [->|Hne].
  { exists [], []. split_and!; [done|simpl; lia|done]. }
  destruct (compress_tree_spec d Hne)
    as (root & meta & body & Hc & Hwf & Hnd & _).
  exists (meta :: body), (code_list root []). split_and!; [done| |].
  - rewrite <-(length_fmap fst), code_list_keys. by apply NoDup_bytes_length.
  - intros b code Hget%dict_get_Some_elem.
    rewrite <-(length_fmap fst (code_list root [])), code_list_keys.
    apply (code_list_root_length root (b, code) Hwf Hget).
Qed.

Lemma total_code_bits_bounds (table : dict byte str) (d : list byte) lo hi :
  (∀ b, b ∈ d → ∃ code, dict_get table b = Some code
                         ∧ lo ≤ length code ≤ hi) →
  length d * lo ≤ total_code_bits table d ≤ length d * hi.
Proof.
  unfold total_code_bits. induction d as [|b d IH]; intros Hd; csimpl; [lia|].
  destruct (Hd b) as (code & -> & Hcode); [left|]. simpl.
  destruct IH as [IH1 IH2]; [intros b' Hb'; apply Hd; by right|]. lia.
Qed.

(** X19: on a non-empty input the output of [compress] has the metadata
    byte and at least one byte for every 8 input bytes; and at most the
    bytes that [len(d)] codes of the longest possible length fill. *)
Theorem X19_compress_size_bounds (d : list byte) :
  d ≠ [] →
  ∃ packed table,
    compress d = Ok (packed, table)
    ∧ 1 + ceil_div8 (length d) ≤ length packed
    ∧ length packed
      ≤ 1 + ceil_div8 (length d * Nat.max 1 (length table - 1)).
Proof.
  intros Hne.
  destruct (compress_tree_spec d Hne)
    as (root & meta & body & Hc & Hwf & Hnd & Hkeys & Hbody).
  exists (meta :: body), (code_list root []). split; [done|].
  cbn [length]. rewrite Hbody.
  destruct (total_code_bits_bounds (code_list root []) d 1
             (Nat.max 1 (length (code_list root []) - 1))) as [Hlo Hhi].
  { intros b Hb%Hkeys. rewrite <-code_list_keys with (cur := []) in Hb.
    apply list_elem_of_fmap in Hb as ([b' code] & -> & Hin).
    exists code. split.
    - apply dict_get_elem; [|done].
      unfold dict_keys. by rewrite code_list_keys.
    - rewrite <-(length_fmap fst (code_list root [])), code_list_keys.
      apply (code_list_root_length root (b', code) Hwf Hin). }
  unfold ceil_div8. split.
  - apply le_n_S, Nat.Div0.div_le_mono. lia.
  - apply le_n_S, Nat.Div0.div_le_mono. lia.
Qed.

Lemma X19_compress_size_bounds_witness :
  ∃ packed table,
    compress (bytes_of "abracadabra") = Ok (packed, table)
    ∧ 1 + ceil_div8 (length (bytes_of "abracadabra")) ≤ length packed
    ∧ length packed
      ≤ 1 + ceil_div8 (length (bytes_of "abracadabra")
                        * Nat.max 1 (length table - 1)).
Proof. apply X19_compress_size_bounds. discriminate. Defined.

(** ** The heap order *)

Module heap_order.
Import heapq.

Lemma parent_spec i :
  0 < i → i = 2 * ((i - 1) `div` 2) + 1 ∨ i = 2 * ((i - 1) `div` 2) + 2.
Proof.
  intros Hi. pose proof (Nat.div_mod_eq (i - 1) 2) as Hdiv.
  pose proof (Nat.mod_upper_bound (i - 1) 2 ltac:(done)). lia.
Qed.

Lemma parent_of_child pos i :
  i = 2 * pos + 1 ∨ i = 2 * pos + 2 → (i - 1) `div` 2 = pos.
Proof.
  intros [-> | ->].
  - replace (2 * pos + 1 - 1) with (pos * 2) by lia. by apply Nat.div_mul.
  - replace (2 * pos + 2 - 1) with (1 + pos * 2) by lia.
    by rewrite Nat.div_add.
Qed.

Lemma down_inv_ordered F pos :
  down_inv F pos →
  (0 < pos → ∀ c p, F !! pos = Some c → F !! ((pos - 1) `div` 2) = Some p →
               (freq p ≤ freq c)%Z) →
  heap_ordered F.
Proof.
  intros [Ha _] Hpos i c p Hi Hc Hp.
  destruct (decide (i = pos)) as [->|Hne]; eauto.
Qed.

Lemma _siftdown_loop_ordered fuel : ∀ heap pos newitem,
  pos ≤ fuel → pos < length heap →
  down_inv (<[pos:=newitem]> heap) pos →
  ∃ heap', _siftdown_loop fuel heap 0 pos newitem = Ok heap'
           ∧ heap_ordered heap'.
Proof.
  induction fuel as [|fuel IH]; intros heap pos newitem Hfuel Hlt Hinv;
    cbn [_siftdown_loop].
  - rewrite setitem_Ok by done. eexists. split; [done|].
    apply (down_inv_ordered _ pos Hinv). lia.
  - destruct (decide (0 < pos)) as [Hpos|Hpos]; last first.
    { rewrite setitem_Ok by done. eexists. split; [done|].
      apply (down_inv_ordered _ pos Hinv). lia. }
    pose proof (heapq_facts.parent_lt pos Hpos) as Hpar.
    set (pp := (pos - 1) `div` 2) in *.
    destruct (lookup_lt_is_Some_2 heap pp ltac:(lia)) as [parent Hparent].
    rewrite (getitem_Ok _ _ _ Hparent). monad_step.
    destruct (node_lt newitem parent) eqn:Hcmp; last first.
    { rewrite setitem_Ok by done. eexists. split; [done|].
      apply (down_inv_ordered _ pos Hinv). intros _ c p Hc Hp.
      rewrite list_lookup_insert_eq in Hc by done.
      rewrite list_lookup_insert_ne in Hp by lia.
      unfold node_lt in Hcmp. apply Z.ltb_ge in Hcmp.
      fold pp in Hp. by simplify_eq. }
    unfold node_lt in Hcmp. apply Z.ltb_lt in Hcmp.
    rewrite setitem_Ok by done. monad_step.
    apply IH; [lia|rewrite length_insert; lia|].
    destruct Hinv as [Ha Hb].
    assert (∀ i, i ≠ pos → i ≠ pp →
      <[pp:=newitem]> (<[pos:=parent]> heap) !! i
      = <[pos:=newitem]> heap !! i) as Hother.
    { intros i ? ?. by rewrite !list_lookup_insert_ne by done. }
    assert (<[pp:=newitem]> (<[pos:=parent]> heap) !! pos = Some parent)
      as Hatpos.
    { rewrite list_lookup_insert_ne by lia.
      by rewrite list_lookup_insert_eq by done. }
    assert (<[pp:=newitem]> (<[pos:=parent]> heap) !! pp = Some newitem)
      as Hatpp.
    { by rewrite list_lookup_insert_eq by (rewrite length_insert; lia). }
    assert (<[pos:=newitem]> heap !! pp = Some parent) as HFpp.
    { by rewrite list_lookup_insert_ne by lia. }
    split.
    + intros i c p Hi Hipp Hc Hp.
      destruct (decide (i = pos)) as [->|Hipos].
      * fold pp in Hp. rewrite Hatpos in Hc. rewrite Hatpp in Hp.
        injection Hc as <-. injection Hp as <-. lia.
      * rewrite Hother in Hc by done.
        destruct (decide ((i - 1) `div` 2 = pp)) as [Hpi|Hpi].
        -- assert (<[pos:=newitem]> heap !! ((i - 1) `div` 2) = Some parent)
             as HFpi by (by rewrite Hpi).
           pose proof (Ha i c parent Hi Hipos Hc HFpi).
           rewrite Hpi, Hatpp in Hp. injection Hp as <-. lia.
        -- destruct (decide ((i - 1) `div` 2 = pos)) as [Hpi'|Hpi'].
           ++ pose proof (Hb i c parent Hi Hpi' Hpos Hc HFpp).
              rewrite Hpi', Hatpos in Hp. by injection Hp as <-.
           ++ rewrite Hother in Hp by done. eauto.
    + intros i c g Hi Hpi Hpp Hc Hg.
      pose proof (heapq_facts.parent_lt pp Hpp) as Hppp.
      rewrite Hother in Hg by lia.
      pose proof (Ha pp parent g Hpp ltac:(lia) HFpp Hg) as Hgp.
      destruct (decide (i = pos)) as [->|Hipos].
      * rewrite Hatpos in Hc. by injection Hc as <-.
      * assert (i ≠ pp).
        { intros ->. pose proof (heapq_facts.parent_lt pp Hi). lia. }
        rewrite Hother in Hc by done.
        assert (<[pos:=newitem]> heap !! ((i - 1) `div` 2) = Some parent)
          as HFpi by (by rewrite Hpi).
        pose proof (Ha i c parent Hi Hipos Hc HFpi). lia.
Qed.

Lemma heappush_ordered heap item :
  heap_ordered heap →
  ∃ heap', heappush heap item = Ok heap' ∧ heap_ordered heap'.
Proof.
  intros Hord. unfold heappush, _siftdown.
  rewrite length_app. cbn [length].
  replace (length heap + 1 - 1) with (length heap) by lia.
  rewrite (getitem_Ok _ _ item) by (by rewrite lookup_app_r, Nat.sub_diag).
  monad_step.
  apply _siftdown_loop_ordered; [done|rewrite length_app; simpl; lia|].
  rewrite list_insert_id by (by rewrite lookup_app_r, Nat.sub_diag).
  split.
  - intros i c p Hi Hne Hc Hp.
    pose proof (lookup_lt_Some _ _ _ Hc) as Hlt.
    rewrite length_app in Hlt. simpl in Hlt.
    pose proof (heapq_facts.parent_lt i Hi).
    rewrite lookup_app_l in Hc, Hp by lia. eauto.
  - intros i c g Hi Hpi Hpos Hc Hg.
    pose proof (lookup_lt_Some _ _ _ Hc) as Hlt.
    rewrite length_app in Hlt. simpl in Hlt.
    pose proof (heapq_facts.parent_lt i Hi). lia.
Qed.

Lemma _siftup_loop_ordered fuel : ∀ heap pos,
  pos < length heap → length heap - (2 * pos + 1) ≤ fuel →
  up_inv heap pos →
  ∃ heap' pos',
    _siftup_loop fuel heap (length heap) pos (2 * pos + 1) = Ok (heap', pos')
    ∧ length heap' = length heap
    ∧ pos' < length heap'
    ∧ length heap' ≤ 2 * pos' + 1
    ∧ up_inv heap' pos'.
Proof.
  induction fuel as [|fuel IH]; intros heap pos Hlt Hfuel Hinv;
    cbn [_siftup_loop].
  { exists heap, pos. split_and!; [done..|lia|done]. }
  destruct (decide (2 * pos + 1 < length heap)) as [Hc|Hc]; last first.
  { exists heap, pos. split_and!; [done..|lia|done]. }
  assert (∃ child V,
    (if decide (2 * pos + 1 + 1 < length heap) then
       c ← getitem heap (2 * pos + 1);
       r ← getitem heap (2 * pos + 1 + 1);
       Ok (if negb (node_lt c r) then 2 * pos + 1 + 1 else 2 * pos + 1)
     else Ok (2 * pos + 1)) = Ok child
    ∧ (child = 2 * pos + 1 ∨ child = 2 * pos + 2)
    ∧ heap !! child = Some V
    ∧ ∀ i o, (i = 2 * pos + 1 ∨ i = 2 * pos + 2) → heap !! i = Some o →
             (freq V ≤ freq o)%Z)
    as (child & V & -> & Hchild & HV & Hmin).
  { destruct (lookup_lt_is_Some_2 heap (2 * pos + 1) Hc) as [c Hcl].
    destruct (decide (2 * pos + 1 + 1 < length heap)) as [Hr|Hr].
    - destruct (lookup_lt_is_Some_2 heap (2 * pos + 1 + 1) Hr) as [r Hrl].
      rewrite (getitem_Ok _ _ _ Hcl), (getitem_Ok _ _ _ Hrl). monad_step.
      unfold node_lt. destruct (freq c <? freq r)%Z eqn:Hcmp; cbn [negb].
      + apply Z.ltb_lt in Hcmp. exists (2 * pos + 1), c.
        split_and!; [done|by left|done|].
        intros i o [-> | ->] Ho; [|replace (2 * pos + 2) with (2 * pos + 1 + 1)
          in Ho by lia]; simplify_eq; lia.
      + apply Z.ltb_ge in Hcmp. exists (2 * pos + 1 + 1), r.
        split_and!; [done|right; lia|done|].
        intros i o [-> | ->] Ho; [|replace (2 * pos + 2) with (2 * pos + 1 + 1)
          in Ho by lia]; simplify_eq; lia.
    - exists (2 * pos + 1), c. split_and!; [done|by left|done|].
      intros i o [-> | ->] Ho; [simplify_eq; lia|].
      apply lookup_lt_Some in Ho. lia. }
  monad_step. rewrite (getitem_Ok _ _ _ HV). monad_step.
  rewrite setitem_Ok by done. monad_step.
  pose proof (lookup_lt_Some _ _ _ HV) as Hchildlt.
  pose proof (parent_of_child pos child Hchild) as Hpc.
  assert (pos < child) as Hpc' by lia.
  rewrite <-(length_insert heap pos V).
  destruct (IH (<[pos:=V]> heap) child) as (heap' & pos' & Hloop & Hlen' & Hrest).
  { by rewrite length_insert. }
  { rewrite length_insert. lia. }
  { destruct Hinv as [Ha Hb]. split.
    - intros i c p Hi Hic Hpic Hci Hpi.
      destruct (decide (i = pos)) as [->|Hipos].
      + rewrite list_lookup_insert_eq in Hci by done. injection Hci as <-.
        pose proof (heapq_facts.parent_lt pos Hi).
        rewrite list_lookup_insert_ne in Hpi by lia.
        apply (Hb child V p); [lia|done|done|done|done].
      + rewrite list_lookup_insert_ne in Hci by done.
        destruct (decide ((i - 1) `div` 2 = pos)) as [Hpar|Hpar].
        * rewrite Hpar in Hpi. rewrite list_lookup_insert_eq in Hpi by done.
          injection Hpi as <-. apply (Hmin i c); [|done].
          destruct (parent_spec i Hi); lia.
        * rewrite list_lookup_insert_ne in Hpi by done. eauto.
    - intros i c g Hi Hpar _ Hci Hg.
      pose proof (heapq_facts.parent_lt i Hi).
      rewrite list_lookup_insert_ne in Hci by lia.
      rewrite Hpc in Hg. rewrite list_lookup_insert_eq in Hg by done.
      injection Hg as <-.
      apply (Ha i c V); [done|lia|lia|done|by rewrite Hpar]. }
  exists heap', pos'. rewrite length_insert in Hlen', Hloop.
  rewrite length_insert. split_and!; [|done|..].
  - by rewrite Hloop.
  - by destruct Hrest as (? & ? & ?).
  - by destruct Hrest as (? & ? & ?).
  - by destruct Hrest as (? & ? & ?).
Qed.

Lemma _siftup_ordered heap :
  0 < length heap → up_inv heap 0 →
  ∃ heap', _siftup heap 0 = Ok heap' ∧ heap_ordered heap'.
Proof.
  intros Hlen Hinv.
  destruct (lookup_lt_is_Some_2 heap 0 Hlen) as [newitem Hnew].
  unfold _siftup. rewrite (getitem_Ok _ _ _ Hnew). monad_step.
  destruct (_siftup_loop_ordered (length heap) heap 0 Hlen ltac:(lia) Hinv)
    as (heap' & pos' & Hloop & Hlen' & Hpos' & Hleaf & [Ha Hb]).
  rewrite Hloop. monad_step.
  rewrite setitem_Ok by done. monad_step. unfold _siftdown.
  rewrite (getitem_Ok _ _ newitem)
    by (by rewrite list_lookup_insert_eq by done).
  monad_step.
  apply _siftdown_loop_ordered; [done|by rewrite length_insert|].
  rewrite list_insert_insert_eq.
  assert (∀ i, 0 < i → (i - 1) `div` 2 = pos' → length heap' ≤ i) as Hout.
  { intros i Hi Hpar. destruct (parent_spec i Hi); lia. }
  split.
  - intros i c p Hi Hipos Hc Hp.
    rewrite list_lookup_insert_ne in Hc by done.
    destruct (decide ((i - 1) `div` 2 = pos')) as [Hpar|Hpar].
    + apply lookup_lt_Some in Hc. pose proof (Hout i Hi Hpar). lia.
    + rewrite list_lookup_insert_ne in Hp by done. eauto.
  - intros i c g Hi Hpar _ Hc _.
    apply lookup_lt_Some in Hc. rewrite length_insert in Hc.
    pose proof (Hout i Hi Hpar). lia.
Qed.

(** The first item of a heap in heap order is a least one. *)
Lemma heap_ordered_min heap m :
  heap_ordered heap → heap !! 0 = Some m →
  ∀ x, x ∈ heap → (freq m ≤ freq x)%Z.
Proof.
  intros Hord Hm x [i Hi]%list_elem_of_lookup. revert x Hi.
  induction (lt_wf i) as [i _ IH]. intros x Hi.
  destruct (decide (i = 0)) as [->|Hne]; [simplify_eq; lia|].
  pose proof (heapq_facts.parent_lt i ltac:(lia)) as Hpar.
  pose proof (lookup_lt_Some _ _ _ Hi) as Hlt.
  destruct (lookup_lt_is_Some_2 heap ((i - 1) `div` 2) ltac:(lia)) as [p Hp].
  pose proof (IH _ Hpar p Hp).
  pose proof (Hord i x p ltac:(lia) Hi Hp). lia.
Qed.

Lemma heappop_ordered heap :
  heap_ordered heap → heap ≠ [] →
  ∃ item heap',
    heappop heap = Ok (item, heap')
    ∧ heap !! 0 = Some item
    ∧ heap_ordered heap'.
Proof.
  intros Hord Hne. unfold heappop.
  destruct (last heap) as [lastelt|] eqn:Hlast;
    [|by apply last_None in Hlast].
  apply last_Some in Hlast as [heap0 ->].
  rewrite removelast_last. destruct heap0 as [|returnitem heap0].
  { exists lastelt, []. split_and!; [done..|]. by intros i c p _ ?. }
  rewrite setitem_Ok by (simpl; lia). monad_step.
  cbn [insert list_insert].
  destruct (_siftup_ordered (lastelt :: heap0)) as (heap' & -> & Hord');
    [simpl; lia| |by exists returnitem, heap'].
  split; [|intros; lia].
  intros i c p Hi _ Hpar Hc Hp.
  pose proof (heapq_facts.parent_lt i Hi).
  pose proof (lookup_lt_Some _ _ _ Hc) as Hlt. simpl in Hlt.
  destruct i as [|i]; [lia|].
  destruct ((S i - 1) `div` 2) as [|j] eqn:Hj; [done|].
  apply (Hord (S i) c p); [lia| |].
  - rewrite lookup_app_l by (simpl; lia). exact Hc.
  - rewrite Hj. rewrite lookup_app_l by (simpl; lia). exact Hp.
Qed.

End heap_order.

Lemma _build_min_heap_loop_ordered items : ∀ heap,
  heap_ordered heap →
  ∃ heap', _build_min_heap_loop items heap = Ok heap' ∧ heap_ordered heap'.
Proof.
  induction items as [|[ch f] items IH]; intros heap Hord; simpl.
  - by exists heap.
  - destruct (heap_order.heappush_ordered heap (leaf_node ch f) Hord)
      as (heap1 & -> & Hord1). monad_step. by apply IH.
Qed.

(** X20: [_build_min_heap] raises on no frequency table; the heap it
    returns holds one leaf node per entry of the table and nothing else,
    in heap order (no node has a smaller count than its parent at index
    [(i - 1) // 2]), so that its first node has a least count. *)
Theorem X20_min_heap_ordered (frequency : dict byte Z) :
  ∃ heap,
    _build_min_heap frequency = Ok heap
    ∧ heap ≡ₚ (λ kv, leaf_node kv.1 kv.2) <$> frequency
    ∧ heap_ordered heap
    ∧ ∀ first, heap !! 0 = Some first →
        ∀ n, n ∈ heap → (freq first ≤ freq n)%Z.
Proof.
  unfold _build_min_heap.
  destruct (_build_min_heap_loop_perm frequency []) as (heap & Hheap & Hperm).
  destruct (_build_min_heap_loop_ordered frequency [])
    as (heap' & Hheap' & Hord); [by intros i c p _ ?|].
  rewrite Hheap in Hheap'. injection Hheap' as <-.
  exists heap. split_and!; [done..|].
  intros first Hfirst. by apply heap_order.heap_ordered_min.
Qed.

Lemma merge_step (heap : list HuffmanNode) :
  heap_ordered heap → 1 < length heap →
  ∃ heap',
    huffman_step heap heap'
    ∧ heap_ordered heap'
    ∧ S (length heap') = length heap
    ∧ ∀ fuel, _merge_nodes_loop (S fuel) heap = _merge_nodes_loop fuel heap'.
Proof.
  intros Hord Hlen.
  assert (heap ≠ []) as Hne by (intros ->; simpl in *; lia).
  destruct (heapq_facts.heappop_perm heap Hne)
    as (node1 & heap1 & Hpop1 & Hperm1).
  destruct (heap_order.heappop_ordered heap Hord Hne)
    as (node1' & heap1' & Hpop1' & Hfirst1 & Hord1).
  rewrite Hpop1 in Hpop1'. injection Hpop1' as <- <-.
  assert (length heap = S (length heap1)) as Hlen1 by (by rewrite <-Hperm1).
  assert (heap1 ≠ []) as Hne1 by (intros ->; simpl in *; lia).
  destruct (heapq_facts.heappop_perm heap1 Hne1)
    as (node2 & heap2 & Hpop2 & Hperm2).
  destruct (heap_order.heappop_ordered heap1 Hord1 Hne1)
    as (node2' & heap2' & Hpop2' & Hfirst2 & Hord2).
  rewrite Hpop2 in Hpop2'. injection Hpop2' as <- <-.
  assert (length heap1 = S (length heap2)) as Hlen2 by (by rewrite <-Hperm2).
  set (merged := mkNode None (freq node1 + freq node2) (Some node1)
                   (Some node2)).
  destruct (heapq_facts.heappush_perm heap2 merged)
    as (heap3 & Hpush & Hperm3).
  destruct (heap_order.heappush_ordered heap2 merged Hord2)
    as (heap3' & Hpush' & Hord3).
  rewrite Hpush in Hpush'. injection Hpush' as <-.
  exists heap3. split_and!.
  - exists node1, node2, heap2. split_and!; [|..|done].
    + by rewrite Hperm2.
    + intros n Hn. apply (heap_order.heap_ordered_min heap node1 Hord Hfirst1).
      rewrite <-Hperm1. right. by rewrite <-Hperm2.
    + intros n Hn.
      apply (heap_order.heap_ordered_min heap1 node2 Hord1 Hfirst2).
      rewrite <-Hperm2. by right.
  - done.
  - rewrite Hperm3. simpl. lia.
  - intros fuel. cbn [_merge_nodes_loop].
    rewrite decide_True by done. rewrite Hpop1. monad_step.
    rewrite Hpop2. monad_step. fold merged. rewrite Hpush. done.
Qed.

(** X21: [_merge_nodes] is Huffman's algorithm.  On a heap in heap order
    it returns the heap reached by a sequence of steps, each of which
    takes out two nodes of least frequency and puts back a node with the
    sum of their frequencies, the first taken on the left and the second
    on the right; it stops with one node (with none on the empty
    heap). *)
Theorem X21_merge_nodes_huffman (heap : list HuffmanNode) :
  heap_ordered heap →
  ∃ final,
    _merge_nodes heap = Ok final
    ∧ rtc huffman_step heap final
    ∧ length final = Nat.min 1 (length heap).
Proof.
  unfold _merge_nodes.
  assert (length heap ≤ S (length heap)) as Hlen by lia. revert Hlen.
  generalize (length heap) at 2 3 as fuel. intros fuel. revert heap.
  induction fuel as [|fuel IH]; intros heap Hlen Hord.
  - exists heap. split_and!; [done..|]. lia.
  - destruct (decide (1 < length heap)) as [Hlt|Hlt]; last first.
    { exists heap. cbn [_merge_nodes_loop]. rewrite decide_False by done.
      split_and!; [done..|]. lia. }
    destruct (merge_step heap Hord Hlt) as (heap' & Hstep & Hord' & Hlen' & ->).
    destruct (IH heap' ltac:(lia) Hord') as (final & -> & Hsteps & Hfinal).
    exists final. split_and!; [done| |lia].
    by eapply rtc_l.
Qed.

Lemma three_leaves_ordered : heap_ordered three_leaves.
Proof.
  intros i c p Hi Hc Hp. unfold three_leaves in *.
  destruct i as [|[|[|i]]]; [lia|..|done]; simplify_eq/=; lia.
Qed.

Lemma X21_merge_nodes_huffman_witness :
  ∃ final,
    _merge_nodes three_leaves = Ok final
    ∧ rtc huffman_step three_leaves final
    ∧ length final = Nat.min 1 (length three_leaves).
Proof. exact (X21_merge_nodes_huffman three_leaves three_leaves_ordered). Defined.

(** ** The size of the encoded data *)

Lemma weighted_length_cons (table : dict byte str) (b : byte) (d : list byte)
    code :
  NoDup (dict_keys table) → dict_get table b = Some code →
  sum_list ((λ kv, occurrences kv.1 (b :: d) * length kv.2) <$> table)
  = length code
    + sum_list ((λ kv, occurrences kv.1 d * length kv.2) <$> table).
Proof.
  unfold dict_keys, occurrences.
  induction table as [|[k v] table IH]; intros Hnd Hget; [done|].
  csimpl in *. apply NoDup_cons in Hnd as [Hk Hnd].
  rewrite filter_cons. destruct (decide (b = k)) as [->|Hbk].
  - injection Hget as ->. cbn [length].
    assert (sum_list
              ((λ kv, length (filter (λ x, x = kv.1) (k :: d)) * length kv.2)
                 <$> table)
            = sum_list
                ((λ kv, length (filter (λ x, x = kv.1) d) * length kv.2)
                   <$> table)) as ->; [|lia].
    f_equal. apply list_fmap_ext. intros i [k' v'] Hi. cbn [fst snd].
    rewrite filter_cons, decide_False; [done|].
    intros ->. apply Hk, list_elem_of_fmap. exists (k', v').
    split; [done|]. by eapply list_elem_of_lookup_2.
  - rewrite IH by done. lia.
Qed.

Lemma total_code_bits_weighted (table : dict byte str) (d : list byte) :
  NoDup (dict_keys table) →
  (∀ b, b ∈ d → is_Some (dict_get table b)) →
  total_code_bits table d
  = sum_list ((λ kv, occurrences kv.1 d * length kv.2) <$> table).
Proof.
  intros Hnd. unfold total_code_bits.
  induction d as [|b d IH]; intros Hd.
  - csimpl. clear. induction table as [|kv table IHt]; [done|]. csimpl.
    by rewrite <-IHt.
  - destruct (Hd b) as [code Hcode]; [left|].
    rewrite (weighted_length_cons table b d code Hnd Hcode).
    csimpl. rewrite Hcode, IH; [done|]. intros b' Hb'. apply Hd. by right.
Qed.

Lemma _get_encoded_data_length (table : dict byte str) (d : list byte)
    encoded :
  _get_encoded_data table d = Ok encoded →
  length encoded = total_code_bits table d
  ∧ ∀ b, b ∈ d → is_Some (dict_get table b).
Proof.
  unfold total_code_bits. revert encoded.
  induction d as [|b d IH]; intros encoded; csimpl.
  - intros [= <-]. split; [done|]. intros b Hb. by apply elem_of_nil in Hb.
  - unfold dict_getitem. destruct (dict_get table b) as [code|] eqn:Hb;
      monad_step; [|done].
    destruct (_get_encoded_data table d) as [enc|]; monad_step; [|done].
    intros [= <-]. destruct (IH enc eq_refl) as [Hlen Hall].
    split.
    + rewrite length_app, Hlen. done.
    + intros b' [->|Hb']%elem_of_cons; [by rewrite Hb|by apply Hall].
Qed.

(** X22: the length of the bit-string that [_get_encoded_data] returns
    is fixed by the counts and the code lengths: for a table with
    distinct keys, it is the sum, over the entries of the table, of the
    number of occurrences of the symbol in the data times the length of
    its code. *)
Theorem X22_weighted_length (table : dict byte str) (d : list byte)
    (encoded : str) :
  NoDup (dict_keys table) →
  _get_encoded_data table d = Ok encoded →
  length encoded
  = sum_list ((λ kv, occurrences kv.1 d * length kv.2) <$> table).
Proof.
  intros Hnd Henc.
  destruct (_get_encoded_data_length table d encoded Henc) as [-> Hall].
  by apply total_code_bits_weighted.
Qed.

Lemma X22_weighted_length_witness :
  _get_encoded_data abc_table (bytes_of "abca")
  = Ok [c0; c1; c0; c1; c1; c0]
  ∧ length [c0; c1; c0; c1; c1; c0]
    = sum_list ((λ kv, occurrences kv.1 (bytes_of "abca") * length kv.2)
                  <$> abc_table).
Proof.
  split; [reflexivity|].
  apply (X22_weighted_length abc_table (bytes_of "abca")).
  - apply (bool_decide_unpack _). vm_compute. exact I.
  - reflexivity.
Defined.

(** ** Inputs of one repeated byte *)

Lemma single_leaf_codes root (b : byte) :
  tree_wf root → leaves root = [b] → code_list root [] = [(b, [c0])].
Proof.
  destruct root as [[ch|] f l r]; simpl.
  - intros _. unfold leaves. simpl. by intros [= ->].
  - destruct l as [l|], r as [r|]; try done.
    intros (_ & Hl & Hr). rewrite leaves_merged.
    pose proof (tree_wf_leaves l Hl). pose proof (tree_wf_leaves r Hr).
    destruct (leaves l) as [|? [|? ?]], (leaves r); done.
Qed.

Lemma zero_byte_bits (x : byte) :
  format_08b x = replicate 8 c0 → x = "000"%byte.
Proof. destruct x; vm_compute; first [reflexivity | discriminate]. Qed.

Lemma zero_bytes_bits (body : list byte) : ∀ k,
  to_bit_string body = replicate (8 * k) c0 →
  body = replicate k "000"%byte.
Proof.
  rewrite to_bit_string_bind.
  induction body as [|x body IH]; intros k Heq.
  - destruct k; [done|]. apply (f_equal length) in Heq.
    rewrite length_replicate in Heq. simpl in Heq. lia.
  - change ((x :: body) ≫= format_08b)
      with (format_08b x ++ (body ≫= format_08b)) in Heq.
    destruct (format_08b_spec x) as [Hlen _].
    destruct k as [|k].
    { apply (f_equal length) in Heq. rewrite length_app, Hlen in Heq.
      simpl in Heq. lia. }
    replace (8 * S k) with (8 + 8 * k) in Heq by lia.
    rewrite replicate_add in Heq.
    apply app_inj_1 in Heq as [Hx Hbody]; [|by rewrite length_replicate].
    cbn [replicate]. f_equal; [by apply zero_byte_bits|by apply IH].
Qed.

Lemma _decode_loop_zeros (b : byte) : ∀ m out,
  _decode_loop [([c0], b)] (replicate m c0) [] out
  = ([], out ++ replicate m b).
Proof.
  induction m as [|m IH]; intros out.
  - simpl. by rewrite app_nil_r.
  - cbn [replicate _decode_loop app dict_get].
    rewrite decide_True by done. rewrite IH. by rewrite <-app_assoc.
Qed.

(** X23: an input of [n > 0] copies of one byte [b] is compressed to the
    table [{b: "0"}], the metadata byte [8 - n mod 8] and [ceil(n / 8)]
    zero bytes; decompressing that gives [n] copies of [b] back when [n]
    is not a multiple of 8, and [n - 8] copies when it is. *)
Theorem X23_single_byte_inputs (b : byte) (n : nat) :
  0 < n →
  ∃ meta,
    Byte.to_N meta = N.of_nat (8 - n `mod` 8)
    ∧ compress (replicate n b)
      = Ok (meta :: replicate (ceil_div8 n) "000"%byte, [(b, [c0])])
    ∧ decompress (meta :: replicate (ceil_div8 n) "000"%byte) [(b, [c0])]
      = Ok (replicate (if decide (n `mod` 8 = 0) then n - 8 else n) b).
Proof.
  intros Hn.
  assert (replicate n b ≠ []) as Hne by (destruct n; [lia|done]).
  destruct (compress_tree_spec _ Hne)
    as (root & meta & body & Hc & Hwf & Hnd & Hkeys & _).
  assert (code_list root [] = [(b, [c0])]) as Htable.
  { apply single_leaf_codes; [done|].
    assert (b ∈ leaves root) as Hb.
    { apply Hkeys. destruct n; [lia|]. left. }
    destruct (leaves root) as [|x [|y ?]] eqn:Hl.
    - by apply elem_of_nil in Hb.
    - by apply list_elem_of_singleton in Hb as ->.
    - assert (x = b) as ->.
      { assert (x ∈ replicate n b) as Hx by (apply Hkeys; left).
        by apply elem_of_replicate in Hx as [-> _]. }
      assert (y = b) as ->.
      { assert (y ∈ replicate n b) as Hy by (apply Hkeys; right; left).
        by apply elem_of_replicate in Hy as [-> _]. }
      apply NoDup_cons in Hnd as [Hnd _]. destruct Hnd. left. }
  rewrite Htable in Hc.
  destruct (compress_spec _ Hne) as (table & encoded & meta' & body' & Hc'
    & _ & Henc & _ & _ & Hmeta & Hbody & _).
  rewrite Hc in Hc'. injection Hc' as <- <- <-.
  assert (encoded = replicate n c0) as ->.
  { apply _get_encoded_data_join in Henc as ->. clear.
    induction n as [|n IH]; [done|]. cbn [replicate].
    rewrite bind_cons, IH. cbn [dict_get].
    by rewrite decide_True by done. }
  rewrite length_replicate in Hmeta.
  destruct (_pad_encoded_data_spec (replicate n c0))
    as (Hpad & Hpad8 & Hpadded & Hmod & Hdiv).
  rewrite Hpadded in Hbody, Hmod, Hdiv. cbn [fst] in *.
  rewrite length_replicate in *.
  set (z := if decide (8 - n `mod` 8 ≠ 8) then 8 - n `mod` 8 else 0) in *.
  rewrite <-replicate_add in Hbody, Hmod, Hdiv.
  rewrite length_replicate in Hmod, Hdiv.
  pose proof (Nat.div_mod_eq (n + z) 8) as Hnz.
  assert (body = replicate (ceil_div8 n) "000"%byte) as ->.
  { apply zero_bytes_bits. rewrite Hbody. f_equal. unfold ceil_div8. lia. }
  exists meta. split_and!; [done..|].
  rewrite decompress_cons. unfold payload_bits, _remove_padding.
  rewrite Hbody, Hmeta, Nat2N.id, length_replicate.
  rewrite decide_True by lia. rewrite take_replicate.
  unfold _decode_data, invert_codes. cbn [foldl dict_set fst snd].
  rewrite _decode_loop_zeros. cbn [app]. do 2 f_equal.
  subst z. pose proof (Nat.mod_upper_bound n 8 ltac:(done)).
  destruct (decide (n `mod` 8 = 0)) as [Hm|Hm].
  - rewrite decide_False by lia. lia.
  - rewrite decide_True by lia. lia.
Qed.

Lemma X23_single_byte_inputs_witness :
  ∃ meta,
    Byte.to_N meta = N.of_nat (8 - 16 `mod` 8)
    ∧ compress (replicate 16 "z"%byte)
      = Ok (meta :: replicate (ceil_div8 16) "000"%byte, [("z"%byte, [c0])])
    ∧ decompress (meta :: replicate (ceil_div8 16) "000"%byte)
        [("z"%byte, [c0])]
      = Ok (replicate (if decide (16 `mod` 8 = 0) then 16 - 8 else 16)
              "z"%byte).
Proof. apply X23_single_byte_inputs. lia. Defined.

(** ** Decoding with the table of a tree *)







Section TreeDecoding.
Context (root : HuffmanNode) (symbols : list byte).
Context (Hwf : tree_wf root) (Hroot : char root = None).
Context (Hok : code_table_ok symbols (code_list root [])).

Local Abbreviation RT := (invert_codes (code_list root [])).




End TreeDecoding.




(** ** Truncated bodies *)

Lemma decompress_truncated_cons k meta body codes :
  decompress_truncated k (meta :: body) codes
  = _decode_data (invert_codes codes) (truncated_payload k meta body).
Proof.
  unfold decompress_truncated, decode_bit_string, truncated_payload.
  destruct (format_08b_spec meta) as [Hlen Hint].
  rewrite (take_app_length' (format_08b meta)),
    (drop_app_length' (format_08b meta)) by done.
  by rewrite Hint.
Qed.

(** After a truncation the decoder is left with a proper prefix of the
    encoded data. *)
Lemma truncated_payload_prefix (d : list byte) (k : nat) :
  d ≠ [] → 1 ≤ k ≤ 7 →
  ∃ meta body table encoded,
    compress d = Ok (meta :: body, table)
    ∧ code_table_ok (dict_keys (Counter d)) table
    ∧ _get_encoded_data table d = Ok encoded
    ∧ truncated_payload k meta body `prefix_of` encoded
    ∧ truncated_payload k meta body ≠ encoded.
Proof.
  intros Hne Hk.
  destruct (compress_spec d Hne) as (table & encoded & meta & body & Hc & Hok
    & Henc & Hencne & Hlen & Hmeta & Hbody & _).
  destruct (_pad_encoded_data_spec encoded) as (Hpad & Hpad8 & Hpadded & _).
  set (n := length encoded) in *. set (p := 8 - n `mod` 8) in *.
  set (z := if decide (p ≠ 8) then p else 0) in *.
  assert (1 ≤ n) as Hn by (subst n; destruct encoded; simpl; [done|lia]).
  assert (z = if decide (p ≠ 8) then p else 0) as Hz by done.
  assert (p = 8 - n `mod` 8) as Hp by done.
  pose proof (Nat.div_mod_eq n 8) as Hdiv.
  pose proof (Nat.mod_upper_bound n 8 ltac:(done)) as Hmod.
  clearbody z p.
  assert (k ≤ n + z ∧ n + z - k - p < n) as [Hk1 Hk2]
    by (destruct (decide (p ≠ 8)); lia).
  assert (truncated_payload k meta body = take (n + z - k - p) encoded)
    as Hpayload.
  { unfold truncated_payload, truncate_bits, _remove_padding.
    rewrite Hmeta, Hbody, Hpadded. cbn [fst].
    rewrite decide_True by lia.
    rewrite Nat2N.id, take_take, length_take, length_app, length_replicate.
    fold n.
    replace (((n + z - k) `min` (n + z) - p) `min` (n + z - k))
      with (n + z - k - p) by lia.
    apply take_app_le. fold n. lia. }
  exists meta, body, table, encoded. rewrite Hpayload.
  split_and!; [done..|apply prefix_take|].
  intros Heq. apply (f_equal length) in Heq. rewrite length_take in Heq.
  fold n in Heq. lia.
Qed.

(** What the decoder returns re-encodes to the bits it was given. *)
Lemma _decode_data_Ok_encoded symbols (table : dict byte str) s x :
  code_table_ok symbols table →
  _decode_data (invert_codes table) s = Ok x →
  _get_encoded_data table x = Ok s.
Proof.
  intros Hok. unfold _decode_data.
  destruct (_decode_loop (invert_codes table) s [] []) as [cur out] eqn:Hloop.
  destruct cur; [|done]. intros [= ->].
  apply _decode_loop_sound in Hloop as (segs & bs & Hs & -> & Hall).
  rewrite app_nil_r in Hs. simpl in Hs. subst s. simpl.
  induction Hall as [|seg b segs bs Hseg Hall IH]; [done|].
  cbn [_get_encoded_data]. unfold dict_getitem.
  rewrite (R_Some _ _ Hok _ _ Hseg). monad_step. rewrite IH. done.
Qed.

(** C3, as amended: for every non-empty input and every [k] from 1 to 7,
    removing the last [k] bits of the packed body's bit-string and
    decompressing with the table that [compress] returned raises the
    decode-integrity error exactly when the bits left to decode end
    inside a code, that is, are not the codes of a prefix of the input;
    when they end on a code boundary, [decompress] returns that prefix of
    the input, a proper one.  It returns nothing else: never the input,
    never bytes that differ from it. *)
Theorem C3_truncation_raises_iff_inside_code (d : list byte) (k : nat) :
  d ≠ [] → 1 ≤ k ≤ 7 →
  ∃ meta body table encoded,
    compress d = Ok (meta :: body, table)
    ∧ _get_encoded_data table d = Ok encoded
    ∧ let remaining := truncated_payload k meta body in
      let r := decompress_truncated k (meta :: body) table in
      remaining `prefix_of` encoded ∧ remaining ≠ encoded
      ∧ (r = Raise IncompleteCodeError
         ↔ ¬ ∃ d', d' `prefix_of` d
                   ∧ _get_encoded_data table d' = Ok remaining)
      ∧ (∀ d', r = Ok d'
               ↔ d' `prefix_of` d ∧ d' ≠ d
                 ∧ _get_encoded_data table d' = Ok remaining)
      ∧ (r = Raise IncompleteCodeError
         ∨ ∃ d', r = Ok d' ∧ d' `prefix_of` d ∧ d' ≠ d).
Proof.
  intros Hne Hk.
  destruct (truncated_payload_prefix d k Hne Hk)
    as (meta & body & table & encoded & Hc & Hok & Henc & Hpre & Hsne).
  exists meta, body, table, encoded. split_and!; [done..|]. cbn zeta.
  rewrite decompress_truncated_cons.
  set (remaining := truncated_payload k meta body) in *.
  assert (∀ d', _decode_data (invert_codes table) remaining = Ok d'
                ↔ d' `prefix_of` d ∧ d' ≠ d
                  ∧ _get_encoded_data table d' = Ok remaining) as HOk.
  { intros d'. split.
    - intros Hdec.
      pose proof (_decode_data_Ok_encoded _ _ _ _ Hok Hdec) as Hd'.
      destruct (_decode_loop_prefix _ _ Hok d encoded remaining [] Henc Hpre)
        as (cur & d0 & Hloop & Hd0 & Hd0ne).
      unfold _decode_data in Hdec. rewrite Hloop in Hdec.
      destruct cur; [|done]. injection Hdec as <-. auto.
    - intros (_ & _ & Hd'). by eapply _decode_data_encoded. }
  assert (_decode_data (invert_codes table) remaining
          = Raise IncompleteCodeError
          ∨ ∃ d', _decode_data (invert_codes table) remaining = Ok d')
    as Hcases.
  { unfold _decode_data.
    destruct (_decode_loop (invert_codes table) remaining [] [])
      as [[|c cur] out]; [right; by eexists|by left]. }
  split_and!; [done..| |done|].
  - split.
    + intros Hraise (d' & Hd' & Hencd').
      assert (_decode_data (invert_codes table) remaining = Ok d') as Hdec
        by (by eapply _decode_data_encoded).
      congruence.
    + intros Hnone. destruct Hcases as [?|[d' Hd']]; [done|].
      destruct Hnone. exists d'. apply HOk in Hd'. tauto.
  - destruct Hcases as [?|[d' Hd']]; [by left|]. right.
    exists d'. split; [done|]. apply HOk in Hd'. tauto.
Qed.

Lemma C3_truncation_raises_iff_inside_code_witness :
  bytes_of "abracadabra" ≠ [] ∧ 1 ≤ 3 ≤ 7
  ∧ ∃ meta body table encoded,
      compress (bytes_of "abracadabra") = Ok (meta :: body, table)
      ∧ _get_encoded_data table (bytes_of "abracadabra") = Ok encoded
      ∧ let remaining := truncated_payload 3 meta body in
        let r := decompress_truncated 3 (meta :: body) table in
        remaining `prefix_of` encoded ∧ remaining ≠ encoded
        ∧ (r = Raise IncompleteCodeError
           ↔ ¬ ∃ d', d' `prefix_of` bytes_of "abracadabra"
                     ∧ _get_encoded_data table d' = Ok remaining)
        ∧ (∀ d', r = Ok d'
                 ↔ d' `prefix_of` bytes_of "abracadabra"
                   ∧ d' ≠ bytes_of "abracadabra"
                   ∧ _get_encoded_data table d' = Ok remaining)
        ∧ (r = Raise IncompleteCodeError
           ∨ ∃ d', r = Ok d' ∧ d' `prefix_of` bytes_of "abracadabra"
                   ∧ d' ≠ bytes_of "abracadabra").
Proof.
  assert (bytes_of "abracadabra" ≠ []) as Hne by discriminate.
  assert (1 ≤ 3 ≤ 7) as Hk by lia.
  split_and!; [exact Hne|lia|lia|].
  exact (C3_truncation_raises_iff_inside_code _ 3 Hne Hk).
Defined.
